(** * Trusted contacts and the notification log (app/routes/contacts.py)

    A shallow embedding of the contact handlers of the safety backend.  The
    handlers are asynchronous Python functions that talk to two MongoDB
    collections, [trusted_contacts] and [notifications]; here each handler is
    a computation in a state-and-exception monad over a [World] that holds
    the two collections and the part of the environment the handlers observe:
    the identifiers the driver hands out, the wall clock read by
    [datetime.utcnow()], and the health of the connection to the store.

    Requests are handled one after the other: the interleaving of concurrent
    requests is outside this development. *)

From Stdlib Require Import List String Ascii Bool Arith NArith ZArith Lia.
From Stdlib Require Import PrimFloat DecimalString.
Import ListNotations.

Set Implicit Arguments.

(** ** Values *)

(** A [datetime], in microseconds since the epoch, as [datetime.utcnow()]
    reads it. *)
Definition datetime := Z.

(** What a document keeps of a [datetime]: BSON stores milliseconds, so the
    microseconds below the millisecond are dropped on the way to the store. *)
Definition bson_datetime (t : datetime) : datetime := (1000 * (t / 1000))%Z.
Arguments bson_datetime : simpl never.

(** A JSON string that may be [null]. *)
Definition opt_str := option string.

Definition opt_str_eqb (a b : opt_str) : bool :=
  match a, b with
  | Some x, Some y => String.eqb x y
  | None, None => true
  | _, _ => false
  end.

(** A field of a dict that may lack the key: [unset] when the key is absent,
    [given v] when it is present with value [v]. *)
Inductive field (A : Type) : Type :=
| unset : field A
| given : A -> field A.
Arguments unset {A}.
Arguments given {A} _.

Definition is_given {A} (f : field A) : bool :=
  match f with unset => false | given _ => true end.

Definition field_or {A} (f : field A) (old : A) : A :=
  match f with unset => old | given v => v end.

(** ** bson.ObjectId *)

Module Bson.

(** An identifier is a string of bytes: twelve bytes when the driver
    generates it, fewer when it comes from a string with whitespace (see
    [parse]).  Identifiers are numbered: a twelve-byte identifier is its
    big-endian value, below [2 ^ 96]; a shorter one, of [len] bytes, is
    [2 ^ 96 * (len + 1)] plus its value.  Two identifiers are equal exactly
    when their bytes are. *)
Definition ObjectId := N.

Definition encode (len value : N) : ObjectId :=
  if (len =? 12)%N then value else (2 ^ 96 * (len + 1) + value)%N.

Definition hex_value (c : ascii) : option N :=
  let n := N_of_ascii c in
  if (48 <=? n)%N && (n <=? 57)%N then Some (n - 48)%N
  else if (97 <=? n)%N && (n <=? 102)%N then Some (n - 87)%N
  else if (65 <=? n)%N && (n <=? 70)%N then Some (n - 55)%N
  else None.

(** ASCII whitespace: tab, line feed, vertical tab, form feed, carriage
    return, space. *)
Definition is_space (c : ascii) : bool :=
  let n := N_of_ascii c in
  ((9 <=? n)%N && (n <=? 13)%N) || (n =? 32)%N.

(** [bytes.fromhex(s)]: two hexadecimal digits per byte, in either letter
    case; whitespace is skipped before a byte, not inside one.  The result
    is the number of bytes read and their big-endian value. *)
Fixpoint fromhex (s : string) (len value : N) : option (N * N) :=
  match s with
  | EmptyString => Some (len, value)
  | String c rest =>
      if is_space c then fromhex rest len value
      else
        match hex_value c, rest with
        | Some top, String c' rest' =>
            match hex_value c' with
            | Some bot => fromhex rest' (len + 1)%N (256 * value + 16 * top + bot)%N
            | None => None
            end
        | _, _ => None
        end
  end.

(** [ObjectId(s)] for a [str] argument: a string of 24 characters that
    [bytes.fromhex] accepts; anything else is [InvalidId].
    [ObjectId.is_valid(s)] holds exactly when this succeeds. *)
Definition parse (s : string) : option ObjectId :=
  if String.length s =? 24 then
    match fromhex s 0%N 0%N with
    | Some (len, value) => Some (encode len value)
    | None => None
    end
  else None.

Definition hex_char (d : N) : ascii :=
  ascii_of_N (if (d <? 10)%N then 48 + d else 87 + d)%N.

Fixpoint to_hex (digits : nat) (n : N) (acc : string) : string :=
  match digits with
  | O => acc
  | S k => to_hex k (n / 16)%N (String (hex_char (n mod 16)%N) acc)
  end.

(** [str(oid)]: two lower-case hexadecimal digits per byte, so 24 digits
    for a twelve-byte identifier. *)
Definition str (o : ObjectId) : string :=
  let tag := (o / 2 ^ 96)%N in
  if (tag =? 0)%N then to_hex 24 o EmptyString
  else to_hex (2 * N.to_nat (tag - 1)) (o mod 2 ^ 96)%N EmptyString.
Arguments str : simpl never.

End Bson.

(** ** Documents *)

(** A document of the [trusted_contacts] collection. *)
Record Contact : Type := mkContact {
  doc_id : Bson.ObjectId;
  doc_user_id : string;
  doc_name : opt_str;
  doc_phone : opt_str;
  doc_relationship : opt_str;
  doc_is_verified : bool;
  doc_created_at : datetime;
  doc_updated_at : datetime
}.

(** A document of the [notifications] collection. *)
Record Notification : Type := mkNotification {
  ntf_id : Bson.ObjectId;
  ntf_contact_id : string;
  ntf_user_id : string;
  ntf_contact_name : opt_str;
  ntf_contact_phone : opt_str;
  ntf_message : string;
  ntf_latitude : option float;
  ntf_longitude : option float;
  ntf_location_name : option string;
  ntf_sent_at : datetime;
  ntf_status : string
}.

(** ** Request and response models *)

Record TrustedContactCreate : Type := mkCreate {
  tcc_user_id : string;
  tcc_name : string;
  tcc_phone : string;
  tcc_relationship : string
}.

(** [TrustedContactUpdate]: every field is [Optional[str]] with default
    [None]; the model remembers which fields the request body set, and a
    body may set a field to [null]. *)
Record TrustedContactUpdate : Type := mkUpdate {
  tcu_name : field opt_str;
  tcu_phone : field opt_str;
  tcu_relationship : field opt_str
}.

Record NotifyContactRequest : Type := mkNotifyOne {
  ncr_contact_id : string;
  ncr_message : string;
  ncr_latitude : option float;
  ncr_longitude : option float;
  ncr_location_name : option string
}.

Record NotifyAllRequest : Type := mkNotifyAll {
  nar_message : string;
  nar_latitude : option float;
  nar_longitude : option float;
  nar_location_name : option string
}.

(** The dict built by [contact_helper]. *)
Record ContactDict : Type := mkContactDict {
  cd_id : string;
  cd_user_id : string;
  cd_name : opt_str;
  cd_phone : opt_str;
  cd_relationship : opt_str;
  cd_is_verified : bool;
  cd_created_at : datetime;
  cd_updated_at : datetime
}.

Definition contact_helper (contact : Contact) : ContactDict :=
  {| cd_id := Bson.str (doc_id contact);
     cd_user_id := doc_user_id contact;
     cd_name := doc_name contact;
     cd_phone := doc_phone contact;
     cd_relationship := doc_relationship contact;
     cd_is_verified := doc_is_verified contact;
     cd_created_at := doc_created_at contact;
     cd_updated_at := doc_updated_at contact |}.

Record VerifyReply : Type := mkVerifyReply {
  vr_message : string;
  vr_verified : bool
}.

Record NotifyReply : Type := mkNotifyReply {
  nr_message : string;
  nr_contact_name : opt_str;
  nr_contact_phone : opt_str;
  nr_sent_at : datetime
}.

Record NamePhone : Type := mkNamePhone {
  np_name : opt_str;
  np_phone : opt_str
}.

Record NotifyAllReply : Type := mkNotifyAllReply {
  nar_reply_message : string;
  nar_reply_contacts : list NamePhone;
  nar_reply_sent_at : datetime
}.

(** ** Queries and updates of the store *)

(** The clauses the handlers put in their filters. *)
Inductive Clause : Type :=
| IdEq (o : Bson.ObjectId)          (* {"_id": o} *)
| IdNe (o : Bson.ObjectId)          (* {"_id": {"$ne": o}} *)
| UserIdEq (u : string)             (* {"user_id": u} *)
| PhoneEq (p : opt_str).            (* {"phone": p} *)

Definition Query := list Clause.

Definition holds (c : Contact) (cl : Clause) : bool :=
  match cl with
  | IdEq o => N.eqb (doc_id c) o
  | IdNe o => negb (N.eqb (doc_id c) o)
  | UserIdEq u => String.eqb (doc_user_id c) u
  | PhoneEq p => opt_str_eqb (doc_phone c) p
  end.

Definition matches (q : Query) (c : Contact) : bool := forallb (holds c) q.
Arguments matches : simpl never.

(** The dict given to [$set]. *)
Record UpdateDict : Type := mkUpdateDict {
  ud_name : field opt_str;
  ud_phone : field opt_str;
  ud_relationship : field opt_str;
  ud_is_verified : field bool;
  ud_updated_at : field datetime
}.

Definition apply_set (d : UpdateDict) (c : Contact) : Contact :=
  {| doc_id := doc_id c;
     doc_user_id := doc_user_id c;
     doc_name := field_or (ud_name d) (doc_name c);
     doc_phone := field_or (ud_phone d) (doc_phone c);
     doc_relationship := field_or (ud_relationship d) (doc_relationship c);
     doc_is_verified := field_or (ud_is_verified d) (doc_is_verified c);
     doc_created_at := doc_created_at c;
     doc_updated_at := field_or (ud_updated_at d) (doc_updated_at c) |}.

(** [if not update_dict]: a dict is falsy exactly when it has no key. *)
Definition dict_is_empty (d : UpdateDict) : bool :=
  negb (is_given (ud_name d) || is_given (ud_phone d)
        || is_given (ud_relationship d) || is_given (ud_is_verified d)
        || is_given (ud_updated_at d)).

(** First document that satisfies [p], in the order of the collection. *)
Fixpoint find_first (p : Contact -> bool) (l : list Contact) : option Contact :=
  match l with
  | [] => None
  | c :: rest => if p c then Some c else find_first p rest
  end.

(** Rewrites the first document that satisfies [p]. *)
Fixpoint update_first (p : Contact -> bool) (f : Contact -> Contact)
         (l : list Contact) : list Contact :=
  match l with
  | [] => []
  | c :: rest => if p c then f c :: rest else c :: update_first p f rest
  end.

(** Removes the first document that satisfies [p]. *)
Fixpoint delete_first (p : Contact -> bool) (l : list Contact) : list Contact :=
  match l with
  | [] => []
  | c :: rest => if p c then rest else c :: delete_first p rest
  end.

(** ** The world *)

(** Round trips to the store, as the driver sees them. *)
Inductive StoreOp : Type :=
| OpFind (q : Query)
| OpFindOne (q : Query)
| OpCountDocuments (q : Query)
| OpInsertContact
| OpUpdateOne (q : Query)
| OpDeleteOne (q : Query)
| OpInsertNotification.

Record World : Type := mkWorld {
  trusted_contacts : list Contact;     (* in insertion order *)
  notifications : list Notification;   (* in insertion order *)
  next_oid : N;                        (* the next identifier the driver generates *)
  utc : nat -> datetime;               (* the successive readings of the clock *)
  tick : nat;                          (* how many readings were taken *)
  faults : list bool;                  (* fate of the coming round trips:
                                          [true] is a lost connection; none
                                          fails once the list is used up *)
  oplog : list StoreOp                 (* round trips issued so far *)
}.

Definition with_contacts (l : list Contact) (w : World) : World :=
  mkWorld l (notifications w) (next_oid w) (utc w) (tick w) (faults w) (oplog w).

Definition with_notifications (l : list Notification) (w : World) : World :=
  mkWorld (trusted_contacts w) l (next_oid w) (utc w) (tick w) (faults w) (oplog w).

Definition with_next_oid (n : N) (w : World) : World :=
  mkWorld (trusted_contacts w) (notifications w) n (utc w) (tick w) (faults w) (oplog w).

Definition with_tick (t : nat) (w : World) : World :=
  mkWorld (trusted_contacts w) (notifications w) (next_oid w) (utc w) t (faults w) (oplog w).

Definition with_faults (f : list bool) (w : World) : World :=
  mkWorld (trusted_contacts w) (notifications w) (next_oid w) (utc w) (tick w) f (oplog w).

Definition with_oplog (o : list StoreOp) (w : World) : World :=
  mkWorld (trusted_contacts w) (notifications w) (next_oid w) (utc w) (tick w) (faults w) o.

(** The store before any request, under a given clock and a given fate of
    the connection. *)
Definition empty_world (clock : nat -> datetime) (fs : list bool) : World :=
  mkWorld [] [] 0%N clock 0 fs [].

(** ** Exceptions and the handler monad *)

Inductive Exception : Type :=
| HTTPException (status_code : nat) (detail : string)
| InvalidId (oid : string)           (* bson.errors.InvalidId *)
| TypeError                          (* subscripting [None] *)
| ConnectionFailure.                 (* pymongo.errors.ConnectionFailure *)

Inductive Outcome (A : Type) : Type :=
| Return : A -> Outcome A
| Raise : Exception -> Outcome A.
Arguments Return {A} _.
Arguments Raise {A} _.

Definition M (A : Type) : Type := World -> Outcome A * World.

Definition ret {A} (a : A) : M A := fun w => (Return a, w).

Definition raise {A} (e : Exception) : M A := fun w => (Raise e, w).

Definition bind {A B} (m : M A) (k : A -> M B) : M B := fun w =>
  match m w with
  | (Return a, w') => k a w'
  | (Raise e, w') => (Raise e, w')
  end.

(** [try: body  except: handler]: a bare [except] catches every exception. *)
Definition try_except {A} (body : M A) (handler : Exception -> M A) : M A := fun w =>
  match body w with
  | (Return a, w') => (Return a, w')
  | (Raise e, w') => handler e w'
  end.

Declare Scope monad_scope.
Delimit Scope monad_scope with monad.
Notation "x <- m ;; k" := (bind m (fun x => k))
  (at level 61, m at next level, right associativity) : monad_scope.
Notation "m ;;; k" := (bind m (fun _ => k))
  (at level 61, right associativity) : monad_scope.
Open Scope monad_scope.

(** [datetime.utcnow()] *)
Definition utcnow : M datetime := fun w =>
  (Return (utc w (tick w)), with_tick (S (tick w)) w).

(** [ObjectId(s)] *)
Definition ObjectId (s : string) : M Bson.ObjectId :=
  match Bson.parse s with
  | Some o => ret o
  | None => raise (InvalidId s)
  end.

(** One round trip: it is recorded, then it fails or runs on the store. *)
Definition round_trip {A} (op : StoreOp) (run : World -> A * World) : M A := fun w =>
  let w1 := with_oplog (oplog w ++ [op]) w in
  match faults w1 with
  | true :: rest => (Raise ConnectionFailure, with_faults rest w1)
  | false :: rest => let (a, w2) := run (with_faults rest w1) in (Return a, w2)
  | [] => let (a, w2) := run w1 in (Return a, w2)
  end.

(** *** db.trusted_contacts *)

Definition find (q : Query) : M (list Contact) :=
  round_trip (OpFind q) (fun w => (filter (matches q) (trusted_contacts w), w)).

Definition find_one (q : Query) : M (option Contact) :=
  round_trip (OpFindOne q) (fun w => (find_first (matches q) (trusted_contacts w), w)).

Definition count_documents (q : Query) : M nat :=
  round_trip (OpCountDocuments q)
    (fun w => (List.length (filter (matches q) (trusted_contacts w)), w)).

(** A contact as the store keeps it. *)
Definition bson_contact (c : Contact) : Contact :=
  {| doc_id := doc_id c;
     doc_user_id := doc_user_id c;
     doc_name := doc_name c;
     doc_phone := doc_phone c;
     doc_relationship := doc_relationship c;
     doc_is_verified := doc_is_verified c;
     doc_created_at := bson_datetime (doc_created_at c);
     doc_updated_at := bson_datetime (doc_updated_at c) |}.

(** The dict of a [$set] as the store applies it. *)
Definition bson_dict (d : UpdateDict) : UpdateDict :=
  {| ud_name := ud_name d;
     ud_phone := ud_phone d;
     ud_relationship := ud_relationship d;
     ud_is_verified := ud_is_verified d;
     ud_updated_at :=
       match ud_updated_at d with
       | unset => unset
       | given t => given (bson_datetime t)
       end |}.

(** [insert_one(doc)] for a dict without ["_id"]: the driver generates the
    identifier; the result carries it as [inserted_id]. *)
Definition insert_one (doc : Bson.ObjectId -> Contact) : M Bson.ObjectId :=
  round_trip OpInsertContact (fun w =>
    let o := next_oid w in
    (o, with_next_oid (N.succ o)
          (with_contacts (trusted_contacts w ++ [bson_contact (doc o)]) w))).

(** [update_one(q, {"$set": d})]; the result is [matched_count]. *)
Definition update_one (q : Query) (d : UpdateDict) : M nat :=
  round_trip (OpUpdateOne q) (fun w =>
    match find_first (matches q) (trusted_contacts w) with
    | Some _ =>
        (1, with_contacts
              (update_first (matches q) (apply_set (bson_dict d)) (trusted_contacts w)) w)
    | None => (0, w)
    end).

(** [delete_one(q)]; the result is [deleted_count]. *)
Definition delete_one (q : Query) : M nat :=
  round_trip (OpDeleteOne q) (fun w =>
    match find_first (matches q) (trusted_contacts w) with
    | Some _ => (1, with_contacts (delete_first (matches q) (trusted_contacts w)) w)
    | None => (0, w)
    end).

(** *** db.notifications *)

(** A notification as the store keeps it. *)
Definition bson_notification (n : Notification) : Notification :=
  {| ntf_id := ntf_id n;
     ntf_contact_id := ntf_contact_id n;
     ntf_user_id := ntf_user_id n;
     ntf_contact_name := ntf_contact_name n;
     ntf_contact_phone := ntf_contact_phone n;
     ntf_message := ntf_message n;
     ntf_latitude := ntf_latitude n;
     ntf_longitude := ntf_longitude n;
     ntf_location_name := ntf_location_name n;
     ntf_sent_at := bson_datetime (ntf_sent_at n);
     ntf_status := ntf_status n |}.

Definition insert_notification (doc : Bson.ObjectId -> Notification) : M Bson.ObjectId :=
  round_trip OpInsertNotification (fun w =>
    let o := next_oid w in
    (o, with_next_oid (N.succ o)
          (with_notifications (notifications w ++ [bson_notification (doc o)]) w))).

(** ** The handlers *)

Definition HTTP_200_OK : nat := 200.
Definition HTTP_201_CREATED : nat := 201.
Definition HTTP_204_NO_CONTENT : nat := 204.
Definition HTTP_400_BAD_REQUEST : nat := 400.
Definition HTTP_404_NOT_FOUND : nat := 404.

(** The error kinds of the contact API, as the exceptions the handlers raise. *)
Definition InvalidIdentifier : Exception :=
  HTTPException HTTP_400_BAD_REQUEST "Invalid contact ID format".
Definition NotFound : Exception :=
  HTTPException HTTP_404_NOT_FOUND "Contact not found".
Definition NoContactsFound : Exception :=
  HTTPException HTTP_404_NOT_FOUND "No trusted contacts found for this user".
Definition LimitExceeded : Exception :=
  HTTPException HTTP_400_BAD_REQUEST "Maximum of 5 trusted contacts allowed".
Definition DuplicatePhone : Exception :=
  HTTPException HTTP_400_BAD_REQUEST "Contact with this phone number already exists".
Definition NoOp : Exception :=
  HTTPException HTTP_400_BAD_REQUEST "No fields to update".

(** GET /contacts/user/{user_id} *)
Definition get_user_contacts (user_id : string) : M (list ContactDict) :=
  found <- find [UserIdEq user_id] ;;
  ret (map contact_helper found).

(** GET /contacts/{contact_id}: the [try] block holds the conversion of the
    identifier and the read of the store. *)
Definition get_contact (contact_id : string) : M ContactDict :=
  contact <- try_except
               (o <- ObjectId contact_id ;; find_one [IdEq o])
               (fun _ => raise InvalidIdentifier) ;;
  match contact with
  | None => raise NotFound
  | Some c => ret (contact_helper c)
  end.

(** POST /contacts/ *)
Definition create_contact (contact : TrustedContactCreate) : M ContactDict :=
  contact_count <- count_documents [UserIdEq (tcc_user_id contact)] ;;
  if 5 <=? contact_count then raise LimitExceeded else
  existing <- find_one [UserIdEq (tcc_user_id contact);
                        PhoneEq (Some (tcc_phone contact))] ;;
  match existing with
  | Some _ => raise DuplicatePhone
  | None =>
      now <- utcnow ;;
      let contact_dict := fun o =>
        {| doc_id := o;
           doc_user_id := tcc_user_id contact;
           doc_name := Some (tcc_name contact);
           doc_phone := Some (tcc_phone contact);
           doc_relationship := Some (tcc_relationship contact);
           doc_is_verified := false;
           doc_created_at := now;
           doc_updated_at := now |} in
      inserted_id <- insert_one contact_dict ;;
      ret (contact_helper (contact_dict inserted_id))
  end.

(** [contact_update.dict(exclude_unset=True)] *)
Definition dict_exclude_unset (u : TrustedContactUpdate) : UpdateDict :=
  {| ud_name := tcu_name u;
     ud_phone := tcu_phone u;
     ud_relationship := tcu_relationship u;
     ud_is_verified := unset;
     ud_updated_at := unset |}.

(** PUT /contacts/{contact_id} *)
Definition update_contact (contact_id : string)
           (contact_update : TrustedContactUpdate) : M ContactDict :=
  object_id <- try_except (ObjectId contact_id)
                          (fun _ => raise InvalidIdentifier) ;;
  existing <- find_one [IdEq object_id] ;;
  match existing with
  | None => raise NotFound
  | Some existing_contact =>
      let update_dict := dict_exclude_unset contact_update in
      if dict_is_empty update_dict then raise NoOp else
      match ud_phone update_dict with
      | given phone =>
          if negb (opt_str_eqb phone (doc_phone existing_contact)) then
            duplicate <- find_one [UserIdEq (doc_user_id existing_contact);
                                   PhoneEq phone;
                                   IdNe object_id] ;;
            match duplicate with
            | Some _ => raise DuplicatePhone
            | None => ret tt
            end
          else ret tt
      | unset => ret tt
      end ;;;
      now <- utcnow ;;
      let update_dict :=
        {| ud_name := ud_name update_dict;
           ud_phone := ud_phone update_dict;
           ud_relationship := ud_relationship update_dict;
           ud_is_verified := ud_is_verified update_dict;
           ud_updated_at := given now |} in
      update_one [IdEq object_id] update_dict ;;;
      updated_contact <- find_one [IdEq object_id] ;;
      match updated_contact with
      | Some c => ret (contact_helper c)
      | None => raise TypeError   (* contact_helper(None) *)
      end
  end.

(** DELETE /contacts/{contact_id}; the handler returns [None]. *)
Definition delete_contact (contact_id : string) : M unit :=
  object_id <- try_except (ObjectId contact_id)
                          (fun _ => raise InvalidIdentifier) ;;
  deleted_count <- delete_one [IdEq object_id] ;;
  if deleted_count =? 0 then raise NotFound else ret tt.

(** POST /contacts/{contact_id}/verify *)
Definition verify_contact (contact_id : string) : M VerifyReply :=
  object_id <- try_except (ObjectId contact_id)
                          (fun _ => raise InvalidIdentifier) ;;
  now <- utcnow ;;
  matched_count <- update_one [IdEq object_id]
                     {| ud_name := unset; ud_phone := unset;
                        ud_relationship := unset;
                        ud_is_verified := given true;
                        ud_updated_at := given now |} ;;
  if matched_count =? 0 then raise NotFound
  else ret {| vr_message := "Test alert sent successfully"; vr_verified := true |}.

(** POST /contacts/notify *)
Definition notify_contact (notify_request : NotifyContactRequest) : M NotifyReply :=
  object_id <- try_except (ObjectId (ncr_contact_id notify_request))
                          (fun _ => raise InvalidIdentifier) ;;
  found <- find_one [IdEq object_id] ;;
  match found with
  | None => raise NotFound
  | Some contact =>
      now <- utcnow ;;
      let notification := fun o =>
        {| ntf_id := o;
           ntf_contact_id := ncr_contact_id notify_request;
           ntf_user_id := doc_user_id contact;
           ntf_contact_name := doc_name contact;
           ntf_contact_phone := doc_phone contact;
           ntf_message := ncr_message notify_request;
           ntf_latitude := ncr_latitude notify_request;
           ntf_longitude := ncr_longitude notify_request;
           ntf_location_name := ncr_location_name notify_request;
           ntf_sent_at := now;
           ntf_status := "sent" |} in
      insert_notification notification ;;;
      ret {| nr_message := "Emergency alert sent successfully";
             nr_contact_name := doc_name contact;
             nr_contact_phone := doc_phone contact;
             nr_sent_at := now |}
  end.

(** The body of [for contact in contacts] in [notify_all_contacts]. *)
Fixpoint notify_each (user_id : string) (req : NotifyAllRequest)
         (contacts : list Contact) (notifications_sent : list NamePhone)
  : M (list NamePhone) :=
  match contacts with
  | [] => ret notifications_sent
  | contact :: rest =>
      now <- utcnow ;;
      let notification := fun o =>
        {| ntf_id := o;
           ntf_contact_id := Bson.str (doc_id contact);
           ntf_user_id := user_id;
           ntf_contact_name := doc_name contact;
           ntf_contact_phone := doc_phone contact;
           ntf_message := nar_message req;
           ntf_latitude := nar_latitude req;
           ntf_longitude := nar_longitude req;
           ntf_location_name := nar_location_name req;
           ntf_sent_at := now;
           ntf_status := "sent" |} in
      insert_notification notification ;;;
      notify_each user_id req rest
        (notifications_sent ++ [{| np_name := doc_name contact;
                                   np_phone := doc_phone contact |}])
  end.

(** [str(n)] for a length. *)
Definition str_of_nat (n : nat) : string := NilZero.string_of_uint (Nat.to_uint n).

(** POST /contacts/notify-all/{user_id} *)
Definition notify_all_contacts (user_id : string) (req : NotifyAllRequest)
  : M NotifyAllReply :=
  contacts <- find [UserIdEq user_id] ;;
  match contacts with
  | [] => raise NoContactsFound
  | _ :: _ =>
      notifications_sent <- notify_each user_id req contacts [] ;;
      now <- utcnow ;;
      ret {| nar_reply_message :=
               ("Emergency alert sent to "
                  ++ str_of_nat (List.length notifications_sent)
                  ++ " contact(s)")%string;
             nar_reply_contacts := notifications_sent;
             nar_reply_sent_at := now |}
  end.

(** ** The transport layer *)

(** The status FastAPI answers with on a route without [response_model]:
    the status declared on the route when the handler returns, the status of
    an [HTTPException] it raises, and 500 for any other exception. *)
Definition status_of {A} (declared : nat) (r : Outcome A) : nat :=
  match r with
  | Return _ => declared
  | Raise (HTTPException status_code _) => status_code
  | Raise _ => 500
  end.

(** [Field(..., min_length=lo, max_length=hi)] on a [str]: [None] is not a
    [str]. *)
Definition str_between (lo hi : nat) (s : opt_str) : bool :=
  match s with
  | Some x => (lo <=? String.length x) && (String.length x <=? hi)
  | None => false
  end.
Arguments str_between : simpl never.

(** What [TrustedContactResponse] accepts of a reply: the fields of
    [TrustedContactBase] with their bounds (the other fields of a reply
    always have the type asked for). *)
Definition valid_response (d : ContactDict) : bool :=
  str_between 1 100 (cd_name d)
  && str_between 10 20 (cd_phone d)
  && str_between 1 50 (cd_relationship d).

(** What [List[TrustedContactResponse]] accepts. *)
Definition valid_listing (l : list ContactDict) : bool := forallb valid_response l.

(** The status on a route with a [response_model]: the value returned is
    validated against the model, and a value it refuses is a 500. *)
Definition status_checked {A} (valid : A -> bool) (declared : nat) (r : Outcome A) : nat :=
  match r with
  | Return a => if valid a then declared else 500
  | Raise (HTTPException status_code _) => status_code
  | Raise _ => 500
  end.

(** The requests that write to [trusted_contacts]. *)
Inductive Request : Type :=
| Create (contact : TrustedContactCreate)
| Update (contact_id : string) (contact_update : TrustedContactUpdate)
| Delete (contact_id : string)
| Verify (contact_id : string).

(** Serves one request: the status answered and the world afterwards. *)
Definition serve (r : Request) (w : World) : nat * World :=
  match r with
  | Create c =>
      let (o, w') := create_contact c w in
      (status_checked valid_response HTTP_201_CREATED o, w')
  | Update i u =>
      let (o, w') := update_contact i u w in
      (status_checked valid_response HTTP_200_OK o, w')
  | Delete i => let (o, w') := delete_contact i w in (status_of HTTP_204_NO_CONTENT o, w')
  | Verify i => let (o, w') := verify_contact i w in (status_of HTTP_200_OK o, w')
  end.

(** Serves the requests in order; the statuses are listed in the same order. *)
Fixpoint serve_all (rs : list Request) (w : World) : list nat * World :=
  match rs with
  | [] => ([], w)
  | r :: rest =>
      let (s, w1) := serve r w in
      let (ss, w2) := serve_all rest w1 in
      (s :: ss, w2)
  end.

Definition succeeded (s : nat) : bool := (200 <=? s) && (s <? 300).

(** ** Vocabulary of the statements *)

(** What the phone-duplicate checks compare. *)
Definition owner_phone (c : Contact) : string * opt_str := (doc_user_id c, doc_phone c).

Definition owned_by (u : string) (c : Contact) : bool := String.eqb (doc_user_id c) u.

(** The contacts of user [u], in insertion order. *)
Definition contacts_of (u : string) (l : list Contact) : list Contact :=
  filter (owned_by u) l.

(** The document stored under an identifier. *)
Definition contact_by_id (o : Bson.ObjectId) (l : list Contact) : option Contact :=
  find_first (fun c => N.eqb (doc_id c) o) l.

(** What the store guarantees of identifiers (they are unique, and the
    driver never hands one out twice) together with the two business rules
    of the contact collection. *)
Record store_ok (l : list Contact) (n : N) : Prop := mk_store_ok {
  ids_fresh : forall c, In c l -> (doc_id c < n)%N;
  ids_unique : NoDup (map doc_id l);
  at_most_five : forall u, List.length (contacts_of u l) <= 5;
  phones_unique : NoDup (map owner_phone l)
}.

(** What the request model [TrustedContactCreate] lets through: the bounds
    of [TrustedContactBase] on the three strings. *)
Definition valid_create (c : TrustedContactCreate) : bool :=
  str_between 1 100 (Some (tcc_name c))
  && str_between 10 20 (Some (tcc_phone c))
  && str_between 1 50 (Some (tcc_relationship c)).

(** The invariant, on a world. *)
Definition world_ok (w : World) : Prop := store_ok (trusted_contacts w) (next_oid w).

(** The reply to a contact or batch of contacts for one notified contact. *)
Definition name_phone (c : Contact) : NamePhone :=
  {| np_name := doc_name c; np_phone := doc_phone c |}.

(** [n] calls of [verify_contact] on the same identifier, one after the
    other, with the outcome of each. *)
Fixpoint verify_times (n : nat) (contact_id : string) (w : World)
  : list (Outcome VerifyReply) * World :=
  match n with
  | O => ([], w)
  | S k =>
      let (r, w1) := verify_contact contact_id w in
      let (rs, w2) := verify_times k contact_id w1 in
      (r :: rs, w2)
  end.

(** The round trips a computation issues when run in [w]. *)
Definition issued {A} (m : M A) (w : World) : list StoreOp :=
  skipn (List.length (oplog w)) (oplog (snd (m w))).

(** The phone-duplicate check of [update_contact]: a [find_one] on owner and
    phone that excludes one identifier. *)
Definition is_duplicate_check (op : StoreOp) : bool :=
  match op with
  | OpFindOne [UserIdEq _; PhoneEq _; IdNe _] => true
  | _ => false
  end.

(** The fields of the documents that neither an update nor a verification
    may touch, position by position. *)
Definition same_identity (l l' : list Contact) : Prop :=
  map doc_id l' = map doc_id l
  /\ map doc_user_id l' = map doc_user_id l
  /\ map doc_created_at l' = map doc_created_at l.

(** The fields a verification leaves alone. *)
Definition same_details (l l' : list Contact) : Prop :=
  map doc_name l' = map doc_name l
  /\ map doc_phone l' = map doc_phone l
  /\ map doc_relationship l' = map doc_relationship l.

(** What every record of a batch carries besides the snapshot. *)
Definition batch_record (user_id : string) (req : NotifyAllRequest)
           (n : Notification) : Prop :=
  ntf_status n = "sent"%string
  /\ ntf_user_id n = user_id
  /\ ntf_message n = nar_message req
  /\ ntf_latitude n = nar_latitude req
  /\ ntf_longitude n = nar_longitude req
  /\ ntf_location_name n = nar_location_name req.

(** The dict [verify_contact] gives to [$set]. *)
Definition verify_set (now : datetime) : UpdateDict :=
  {| ud_name := unset; ud_phone := unset; ud_relationship := unset;
     ud_is_verified := given true; ud_updated_at := given now |}.

Definition verified_reply : VerifyReply :=
  {| vr_message := "Test alert sent successfully"; vr_verified := true |}.

(** ** Sample data

    The example of the specification: user "u1" registers "Mom". *)

(** A clock that advances by a millisecond and a half between readings. *)
Definition sample_clock : nat -> datetime := fun n => (1500 * Z.of_nat n)%Z.

Definition mom : TrustedContactCreate := mkCreate "u1" "Mom" "5551234567" "parent".

Definition mom_id : string := "000000000000000000000000".

Definition mom_doc : Contact :=
  mkContact 0%N "u1" (Some "Mom"%string) (Some "5551234567"%string)
            (Some "parent"%string) false 0%Z 0%Z.

(** The store after [mom] was created in the empty store. *)
Definition mom_world : World := snd (create_contact mom (empty_world sample_clock [])).

Definition dad : TrustedContactCreate := mkCreate "u1" "Dad" "5559876543" "parent".

Definition dad_id : string := "000000000000000000000001".

Definition dad_doc : Contact :=
  mkContact 1%N "u1" (Some "Dad"%string) (Some "5559876543"%string)
            (Some "parent"%string) false 1000%Z 1000%Z.

(** The store after [mom], then [dad], were created. *)
Definition family_world : World := snd (create_contact dad mom_world).

(** The reply to renaming [mom] in [mom_world]. *)
Definition mum_reply : ContactDict :=
  contact_helper
    (mkContact 0%N "u1" (Some "Mum"%string) (Some "5551234567"%string)
               (Some "parent"%string) false 0%Z 1000%Z).

(** A run in which every request succeeds. *)
Definition sample_requests : list Request :=
  [Create mom; Create dad;
   Update dad_id (mkUpdate unset (given (Some "5550001111"%string)) unset);
   Verify mom_id; Delete mom_id].

(** ** Tactics *)

#[local] Arguments Nat.leb : simpl nomatch.

(** Unfolds the monad and the store primitives, so that a handler applied to
    a world reduces to the branches of its code. *)
Ltac run_store :=
  unfold bind, try_except, ret, raise, ObjectId, utcnow, find, find_one,
    count_documents, insert_one, update_one, delete_one, insert_notification,
    round_trip, with_contacts, with_notifications, with_next_oid, with_tick,
    with_faults, with_oplog, bson_contact, bson_dict, bson_notification in *;
  simpl in *.

(** A world with a healthy connection, taken apart. *)
Ltac healthy w Hf :=
  let tc := fresh "tc" in let ns := fresh "ns" in let no := fresh "no" in
  let clk := fresh "clk" in let t := fresh "t" in let fs := fresh "fs" in
  let ol := fresh "ol" in
  destruct w as [tc ns no clk t fs ol]; simpl in *; subst fs.

(** Splits the run recorded in [H] along the branches of the code and the
    fate of each round trip. *)
Ltac branch H :=
  repeat (simpl in H;
          match type of H with
          | context [match ?x with _ => _ end] =>
              first [ is_var x; destruct x
                    | match x with
                      | find_first _ _ => destruct x eqn:?
                      | Bson.parse _ => destruct x eqn:?
                      | Nat.leb _ _ => destruct x eqn:?
                      | dict_is_empty _ => destruct x eqn:?
                      | negb ?y => destruct y eqn:?
                      end ]
          end;
          try discriminate H).

(** * Video tutorials (app/routes/videos.py)

    The video handlers talk to a third collection, [videos], over the same
    connection: they share the clock, the identifiers of the driver and the
    fate of the round trips with the contact handlers. *)

Module Videos.

(** ** Documents and models *)

(** A document of the [videos] collection, as [create_video] writes it. *)
Record Video : Type := mkVideo {
  v_id : Bson.ObjectId;
  v_title : string;
  v_description : string;
  v_video_url : string;
  v_thumbnail_url : string;
  v_duration : Z;
  v_category : string;
  v_difficulty : string;
  v_views : Z;
  v_likes : Z;
  v_created_at : datetime;
  v_updated_at : datetime
}.

Record VideoCreate : Type := mkVideoCreate {
  vc_title : string;
  vc_description : string;
  vc_video_url : string;
  vc_thumbnail_url : string;
  vc_duration : Z;
  vc_category : string;
  vc_difficulty : string
}.

(** [VideoUpdate]: every field is optional and [None] by default. *)
Record VideoUpdate : Type := mkVideoUpdate {
  vu_title : option string;
  vu_description : option string;
  vu_video_url : option string;
  vu_thumbnail_url : option string;
  vu_duration : option Z;
  vu_category : option string;
  vu_difficulty : option string
}.

Record VideoResponse : Type := mkVideoResponse {
  rsp_id : string;
  rsp_title : string;
  rsp_description : string;
  rsp_video_url : string;
  rsp_thumbnail_url : string;
  rsp_duration : Z;
  rsp_category : string;
  rsp_difficulty : string;
  rsp_views : Z;
  rsp_likes : Z;
  rsp_created_at : datetime;
  rsp_updated_at : datetime
}.

(** [VideoResponse(id=str(video["_id"]), ...)] *)
Definition response (video : Video) : VideoResponse :=
  {| rsp_id := Bson.str (v_id video);
     rsp_title := v_title video;
     rsp_description := v_description video;
     rsp_video_url := v_video_url video;
     rsp_thumbnail_url := v_thumbnail_url video;
     rsp_duration := v_duration video;
     rsp_category := v_category video;
     rsp_difficulty := v_difficulty video;
     rsp_views := v_views video;
     rsp_likes := v_likes video;
     rsp_created_at := v_created_at video;
     rsp_updated_at := v_updated_at video |}.

(** ** The database *)

Record Database : Type := mkDatabase {
  videos : list Video;     (* in insertion order *)
  world : World            (* the rest of the store, the clock, the connection *)
}.

(** The exceptions of the contact handlers, and those only the video
    handlers can meet. *)
Inductive Error : Type :=
| Py (e : Exception)
| ValueError         (* a negative [skip] or [length] given to the cursor *)
| OverflowError      (* an int that does not fit the 8 bytes of BSON *)
| WriteError.        (* the server refuses the write *)

Inductive Result (A : Type) : Type :=
| Done : A -> Result A
| Fail : Error -> Result A.
Arguments Done {A} _.
Arguments Fail {A} _.

Definition VM (A : Type) : Type := Database -> Result A * Database.

Definition vret {A} (a : A) : VM A := fun d => (Done a, d).

Definition vraise {A} (e : Error) : VM A := fun d => (Fail e, d).

Definition vbind {A B} (m : VM A) (k : A -> VM B) : VM B := fun d =>
  match m d with
  | (Done a, d') => k a d'
  | (Fail e, d') => (Fail e, d')
  end.

Declare Scope video_scope.
Delimit Scope video_scope with video.
Notation "x <- m ;; k" := (vbind m (fun x => k))
  (at level 61, m at next level, right associativity) : video_scope.
Notation "m ;;; k" := (vbind m (fun _ => k))
  (at level 61, right associativity) : video_scope.
#[local] Open Scope video_scope.

(** [datetime.utcnow()] *)
Definition now : VM datetime := fun d =>
  let w := world d in
  (Done (utc w (tick w)), mkDatabase (videos d) (with_tick (S (tick w)) w)).

(** One round trip: it fails with the connection, or runs on the store. *)
Definition round_trip {A} (run : VM A) : VM A := fun d =>
  match faults (world d) with
  | true :: rest =>
      (Fail (Py ConnectionFailure), mkDatabase (videos d) (with_faults rest (world d)))
  | false :: rest => run (mkDatabase (videos d) (with_faults rest (world d)))
  | [] => run d
  end.

(** What BSON stores as an integer: at most 8 bytes, signed. *)
Definition int64 (z : Z) : bool := (- 2 ^ 63 <=? z)%Z && (z <=? 2 ^ 63 - 1)%Z.

(** First element that satisfies [p]. *)
Fixpoint first_where {A} (p : A -> bool) (l : list A) : option A :=
  match l with
  | [] => None
  | a :: rest => if p a then Some a else first_where p rest
  end.

(** Rewrites the first element that satisfies [p]. *)
Fixpoint rewrite_first {A} (p : A -> bool) (f : A -> A) (l : list A) : list A :=
  match l with
  | [] => []
  | a :: rest => if p a then f a :: rest else a :: rewrite_first p f rest
  end.

(** Removes the first element that satisfies [p]. *)
Fixpoint drop_first {A} (p : A -> bool) (l : list A) : list A :=
  match l with
  | [] => []
  | a :: rest => if p a then rest else a :: drop_first p rest
  end.

(** {"_id": o} *)
Definition has_id (o : Bson.ObjectId) (v : Video) : bool := N.eqb (v_id v) o.

(** The filter of [get_all_videos]: a dict with at most the keys
    ["category"] and ["difficulty"]. *)
Record Filter : Type := mkFilter {
  by_category : option string;
  by_difficulty : option string
}.

Definition key_holds (k : option string) (value : string) : bool :=
  match k with
  | Some wanted => String.eqb value wanted
  | None => true
  end.

Definition selects (q : Filter) (v : Video) : bool :=
  key_holds (by_category q) (v_category v)
  && key_holds (by_difficulty q) (v_difficulty v).

(** *** db.videos *)

(** [find(q).skip(skip).limit(limit).to_list(length=limit)]: the cursor
    refuses a negative [skip], [to_list] refuses a negative [length], both
    before anything is sent, and the command is not sent if one of them does
    not fit; the list holds at most [limit] documents after the first [skip]
    that match. *)
Definition find_page (q : Filter) (skip limit : Z) : VM (list Video) :=
  if (skip <? 0)%Z then vraise ValueError
  else if (limit <? 0)%Z then vraise ValueError
  else round_trip (fun d =>
         if int64 skip && int64 limit then
           (Done (firstn (Z.to_nat limit)
                    (skipn (Z.to_nat skip) (filter (selects q) (videos d)))), d)
         else (Fail OverflowError, d)).

Definition find_one (o : Bson.ObjectId) : VM (option Video) :=
  round_trip (fun d => (Done (first_where (has_id o) (videos d)), d)).

(** A video as the store keeps it. *)
Definition bson_video (v : Video) : Video :=
  {| v_id := v_id v;
     v_title := v_title v;
     v_description := v_description v;
     v_video_url := v_video_url v;
     v_thumbnail_url := v_thumbnail_url v;
     v_duration := v_duration v;
     v_category := v_category v;
     v_difficulty := v_difficulty v;
     v_views := v_views v;
     v_likes := v_likes v;
     v_created_at := bson_datetime (v_created_at v);
     v_updated_at := bson_datetime (v_updated_at v) |}.

(** [insert_one(doc)] for a dict without ["_id"]; the result is
    [inserted_id].  The document is not sent if an int of it does not fit. *)
Definition insert_one (doc : Bson.ObjectId -> Video) : VM Bson.ObjectId :=
  round_trip (fun d =>
    let o := next_oid (world d) in
    if int64 (v_duration (doc o)) then
      (Done o, mkDatabase (videos d ++ [bson_video (doc o)])
                          (with_next_oid (N.succ o) (world d)))
    else (Fail OverflowError, d)).

(** The dict given to [$set] by [update_video]. *)
Record UpdateData : Type := mkUpdateData {
  set_title : option string;
  set_description : option string;
  set_video_url : option string;
  set_thumbnail_url : option string;
  set_duration : option Z;
  set_category : option string;
  set_difficulty : option string;
  set_updated_at : option datetime
}.

Definition or_old {A} (new : option A) (old : A) : A :=
  match new with Some x => x | None => old end.

Definition apply_data (u : UpdateData) (v : Video) : Video :=
  {| v_id := v_id v;
     v_title := or_old (set_title u) (v_title v);
     v_description := or_old (set_description u) (v_description v);
     v_video_url := or_old (set_video_url u) (v_video_url v);
     v_thumbnail_url := or_old (set_thumbnail_url u) (v_thumbnail_url v);
     v_duration := or_old (set_duration u) (v_duration v);
     v_category := or_old (set_category u) (v_category v);
     v_difficulty := or_old (set_difficulty u) (v_difficulty v);
     v_views := v_views v;
     v_likes := v_likes v;
     v_created_at := v_created_at v;
     v_updated_at := or_old (set_updated_at u) (v_updated_at v) |}.

(** The dict of a [$set] as the store applies it. *)
Definition bson_data (u : UpdateData) : UpdateData :=
  {| set_title := set_title u;
     set_description := set_description u;
     set_video_url := set_video_url u;
     set_thumbnail_url := set_thumbnail_url u;
     set_duration := set_duration u;
     set_category := set_category u;
     set_difficulty := set_difficulty u;
     set_updated_at :=
       match set_updated_at u with
       | Some t => Some (bson_datetime t)
       | None => None
       end |}.

Definition fits (z : option Z) : bool :=
  match z with Some i => int64 i | None => true end.

(** [update_one({"_id": o}, {"$set": u})]; nothing is sent if an int of the
    dict does not fit. *)
Definition update_set (o : Bson.ObjectId) (u : UpdateData) : VM unit :=
  round_trip (fun d =>
    if fits (set_duration u) then
      (Done tt, mkDatabase (rewrite_first (has_id o) (apply_data (bson_data u)) (videos d))
                           (world d))
    else (Fail OverflowError, d)).

(** The counters [$inc] is used on. *)
Inductive Counter : Type := Views | Likes.

Definition counter (k : Counter) (v : Video) : Z :=
  match k with Views => v_views v | Likes => v_likes v end.

Definition bump (k : Counter) (v : Video) : Video :=
  {| v_id := v_id v;
     v_title := v_title v;
     v_description := v_description v;
     v_video_url := v_video_url v;
     v_thumbnail_url := v_thumbnail_url v;
     v_duration := v_duration v;
     v_category := v_category v;
     v_difficulty := v_difficulty v;
     v_views := match k with Views => v_views v + 1 | Likes => v_views v end;
     v_likes := match k with Views => v_likes v | Likes => v_likes v + 1 end;
     v_created_at := v_created_at v;
     v_updated_at := v_updated_at v |}%Z.

(** [update_one({"_id": o}, {"$inc": {k: 1}})]; the result is
    [modified_count].  The server refuses an increment past 8 bytes. *)
Definition update_inc (o : Bson.ObjectId) (k : Counter) : VM nat :=
  round_trip (fun d =>
    match first_where (has_id o) (videos d) with
    | None => (Done 0, d)
    | Some v =>
        if int64 (counter k v + 1) then
          (Done 1, mkDatabase (rewrite_first (has_id o) (bump k) (videos d)) (world d))
        else (Fail WriteError, d)
    end).

(** [delete_one({"_id": o})]; the result is [deleted_count]. *)
Definition delete_one (o : Bson.ObjectId) : VM nat :=
  round_trip (fun d =>
    match first_where (has_id o) (videos d) with
    | None => (Done 0, d)
    | Some _ => (Done 1, mkDatabase (drop_first (has_id o) (videos d)) (world d))
    end).

(** ** The handlers *)

Definition InvalidVideoId : Error := Py (HTTPException 400 "Invalid video ID").
Definition VideoNotFound : Error := Py (HTTPException 404 "Video not found").

(** [if category:] a string is truthy unless it is empty. *)
Definition truthy (s : option string) : option string :=
  match s with
  | Some EmptyString => None
  | other => other
  end.

(** The response built by the two [get] handlers: both defaults
    [datetime.utcnow()] of the [.get] calls are evaluated. *)
Definition response_with_defaults (video : Video) : VM VideoResponse :=
  now ;;; now ;;; vret (response video).

Fixpoint responses (vs : list Video) : VM (list VideoResponse) :=
  match vs with
  | [] => vret []
  | video :: rest =>
      r <- response_with_defaults video ;;
      rs <- responses rest ;;
      vret (r :: rs)
  end.

(** GET /videos/ *)
Definition get_all_videos (category difficulty : option string) (skip limit : Z)
  : VM (list VideoResponse) :=
  let query := {| by_category := truthy category;
                  by_difficulty := truthy difficulty |} in
  found <- find_page query skip limit ;;
  responses found.

(** [ObjectId.is_valid(video_id)], then [ObjectId(video_id)]. *)
Definition checked_id (video_id : string) : VM Bson.ObjectId :=
  match Bson.parse video_id with
  | None => vraise InvalidVideoId
  | Some o => vret o
  end.

(** GET /videos/{video_id} *)
Definition get_video (video_id : string) : VM VideoResponse :=
  o <- checked_id video_id ;;
  video <- find_one o ;;
  match video with
  | None => vraise VideoNotFound
  | Some v => response_with_defaults v
  end.

(** POST /videos/ *)
Definition create_video (video : VideoCreate) : VM VideoResponse :=
  created_at <- now ;;
  updated_at <- now ;;
  let video_dict := fun o =>
    {| v_id := o;
       v_title := vc_title video;
       v_description := vc_description video;
       v_video_url := vc_video_url video;
       v_thumbnail_url := vc_thumbnail_url video;
       v_duration := vc_duration video;
       v_category := vc_category video;
       v_difficulty := vc_difficulty video;
       v_views := 0;
       v_likes := 0;
       v_created_at := created_at;
       v_updated_at := updated_at |} in
  inserted_id <- insert_one video_dict ;;
  created_video <- find_one inserted_id ;;
  match created_video with
  | Some v => vret (response v)
  | None => vraise (Py TypeError)   (* created_video["_id"] on None *)
  end.

(** [{k: v for k, v in video_update.dict().items() if v is not None}] *)
Definition update_data (u : VideoUpdate) : UpdateData :=
  {| set_title := vu_title u;
     set_description := vu_description u;
     set_video_url := vu_video_url u;
     set_thumbnail_url := vu_thumbnail_url u;
     set_duration := vu_duration u;
     set_category := vu_category u;
     set_difficulty := vu_difficulty u;
     set_updated_at := None |}.

Definition is_some {A} (x : option A) : bool :=
  match x with Some _ => true | None => false end.

(** [if update_data:] *)
Definition nonempty (u : UpdateData) : bool :=
  is_some (set_title u) || is_some (set_description u)
  || is_some (set_video_url u) || is_some (set_thumbnail_url u)
  || is_some (set_duration u) || is_some (set_category u)
  || is_some (set_difficulty u) || is_some (set_updated_at u).

(** PUT /videos/{video_id} *)
Definition update_video (video_id : string) (video_update : VideoUpdate)
  : VM VideoResponse :=
  o <- checked_id video_id ;;
  let data := update_data video_update in
  (if nonempty data then
     updated_at <- now ;;
     update_set o {| set_title := set_title data;
                     set_description := set_description data;
                     set_video_url := set_video_url data;
                     set_thumbnail_url := set_thumbnail_url data;
                     set_duration := set_duration data;
                     set_category := set_category data;
                     set_difficulty := set_difficulty data;
                     set_updated_at := Some updated_at |}
   else vret tt) ;;;
  updated_video <- find_one o ;;
  match updated_video with
  | None => vraise VideoNotFound
  | Some v => vret (response v)
  end.

(** POST /videos/{video_id}/view *)
Definition increment_view (video_id : string) : VM string :=
  o <- checked_id video_id ;;
  modified_count <- update_inc o Views ;;
  if modified_count =? 0 then vraise VideoNotFound else vret "View counted"%string.

(** POST /videos/{video_id}/like *)
Definition toggle_like (video_id : string) : VM string :=
  o <- checked_id video_id ;;
  modified_count <- update_inc o Likes ;;
  if modified_count =? 0 then vraise VideoNotFound else vret "Like toggled"%string.

(** DELETE /videos/{video_id} *)
Definition delete_video (video_id : string) : VM string :=
  o <- checked_id video_id ;;
  deleted_count <- delete_one o ;;
  if deleted_count =? 0 then vraise VideoNotFound
  else vret "Video deleted successfully"%string.

(** The status answered for a result, given the status of the route. *)
Definition status {A} (declared : nat) (r : Result A) : nat :=
  match r with
  | Done _ => declared
  | Fail (Py (HTTPException status_code _)) => status_code
  | Fail _ => 500
  end.

(** [n] calls of a handler on the same identifier, one after the other. *)
Fixpoint repeatedly {A} (n : nat) (m : VM A) (d : Database) : list (Result A) * Database :=
  match n with
  | O => ([], d)
  | S k =>
      let (r, d1) := m d in
      let (rs, d2) := repeatedly k m d1 in
      (r :: rs, d2)
  end.

End Videos.

(** ** Vocabulary of the video statements *)

(** The update that sets no field. *)
Definition no_change : Videos.VideoUpdate :=
  Videos.mkVideoUpdate None None None None None None None.

(** The handler of a counter, and what it answers. *)
Definition count (k : Videos.Counter) : string -> Videos.VM string :=
  match k with
  | Videos.Views => Videos.increment_view
  | Videos.Likes => Videos.toggle_like
  end.

Definition counted (k : Videos.Counter) : string :=
  match k with
  | Videos.Views => "View counted"%string
  | Videos.Likes => "Like toggled"%string
  end.

(** A video after [n] increments of a counter. *)
Definition bumped (k : Videos.Counter) (n : Z) (v : Videos.Video) : Videos.Video :=
  {| Videos.v_id := Videos.v_id v;
     Videos.v_title := Videos.v_title v;
     Videos.v_description := Videos.v_description v;
     Videos.v_video_url := Videos.v_video_url v;
     Videos.v_thumbnail_url := Videos.v_thumbnail_url v;
     Videos.v_duration := Videos.v_duration v;
     Videos.v_category := Videos.v_category v;
     Videos.v_difficulty := Videos.v_difficulty v;
     Videos.v_views :=
       match k with Videos.Views => Videos.v_views v + n | Videos.Likes => Videos.v_views v end;
     Videos.v_likes :=
       match k with Videos.Views => Videos.v_likes v | Videos.Likes => Videos.v_likes v + n end;
     Videos.v_created_at := Videos.v_created_at v;
     Videos.v_updated_at := Videos.v_updated_at v |}%Z.

(** The videos a listing asks for: an empty string asks for nothing. *)
Definition wanted (category difficulty : option string) (v : Videos.Video) : bool :=
  match category with
  | None => true
  | Some c => String.eqb c "" || String.eqb (Videos.v_category v) c
  end
  && match difficulty with
     | None => true
     | Some c => String.eqb c "" || String.eqb (Videos.v_difficulty v) c
     end.

(** ** Sample videos *)

Definition palm_strike : Videos.VideoCreate :=
  Videos.mkVideoCreate "Palm strike" "A basic strike" "https://videos/1"
    "https://thumbs/1" 90 "self-defense" "beginner".

Definition video_0 : string := "000000000000000000000000".

Definition palm_strike_doc : Videos.Video :=
  Videos.mkVideo 0%N "Palm strike" "A basic strike" "https://videos/1"
    "https://thumbs/1" 90 "self-defense" "beginner" 0 0 0%Z 1000%Z.

Definition empty_database : Videos.Database :=
  Videos.mkDatabase [] (empty_world sample_clock []).

(** The database after [palm_strike] was created in the empty one. *)
Definition studio : Videos.Database :=
  snd (Videos.create_video palm_strike empty_database).

Definition retitle : Videos.VideoUpdate :=
  Videos.mkVideoUpdate (Some "Palm heel strike"%string) None None None None None None.

(** [palm_strike_doc] after [retitle]. *)
Definition retitled_doc : Videos.Video :=
  Videos.mkVideo 0%N "Palm heel strike" "A basic strike" "https://videos/1"
    "https://thumbs/1" 90 "self-defense" "beginner" 0 0 0%Z 3000%Z.

(** ** Tactics for the video handlers *)

Ltac run_videos :=
  unfold Videos.vbind, Videos.vret, Videos.vraise, Videos.now, Videos.checked_id,
    Videos.find_one, Videos.find_page, Videos.insert_one, Videos.update_set,
    Videos.update_inc, Videos.delete_one, Videos.round_trip,
    Videos.response_with_defaults, Videos.bson_video, Videos.bson_data,
    with_tick, with_faults, with_next_oid in *;
  simpl in *.

Ltac healthy_db d Hf :=
  let vs := fresh "vs" in let tc := fresh "tc" in let ns := fresh "ns" in
  let no := fresh "no" in let clk := fresh "clk" in let t := fresh "t" in
  let fs := fresh "fs" in let ol := fresh "ol" in
  destruct d as [vs [tc ns no clk t fs ol]]; simpl in *; subst fs.

(** Splits a run of a video handler along the branches of the code and the
    fate of each round trip. *)
Ltac vbranch H :=
  repeat (simpl in H;
          match type of H with
          | context [match ?x with _ => _ end] =>
              first [ is_var x; destruct x
                    | match x with
                      | Videos.first_where _ _ => destruct x eqn:?
                      | Bson.parse _ => destruct x eqn:?
                      | Videos.int64 _ => destruct x eqn:?
                      | Videos.fits _ => destruct x eqn:?
                      | Videos.nonempty _ => destruct x eqn:?
                      | andb _ _ => destruct x eqn:?
                      | Z.ltb _ _ => destruct x eqn:?
                      end ]
          end;
          try discriminate H).

(** Writes the bound of BSON integers as a numeral, for [lia]. *)
Ltac big := change (2 ^ 63)%Z with 9223372036854775808%Z in *.

(** * Properties *)

(** ** Equality tests *)

Lemma opt_str_eqb_eq (a b : opt_str) : opt_str_eqb a b = true <-> a = b.
Proof.
  destruct a as [x|], b as [y|]; simpl; try (split; congruence).
  rewrite String.eqb_eq. split; congruence.
Qed.

Lemma matches_id o c : matches [IdEq o] c = N.eqb (doc_id c) o.
Proof. unfold matches; simpl. now rewrite andb_true_r. Qed.

Lemma matches_user u c : matches [UserIdEq u] c = String.eqb (doc_user_id c) u.
Proof. unfold matches; simpl. now rewrite andb_true_r. Qed.

Lemma matches_user_phone u p c :
  matches [UserIdEq u; PhoneEq p] c = true <-> doc_user_id c = u /\ doc_phone c = p.
Proof.
  unfold matches; simpl. rewrite andb_true_r, andb_true_iff.
  now rewrite String.eqb_eq, opt_str_eqb_eq.
Qed.

Lemma matches_other_phone u p o c :
  matches [UserIdEq u; PhoneEq p; IdNe o] c = true
  <-> doc_user_id c = u /\ doc_phone c = p /\ doc_id c <> o.
Proof.
  unfold matches; simpl. rewrite andb_true_r, !andb_true_iff, negb_true_iff.
  now rewrite String.eqb_eq, opt_str_eqb_eq, N.eqb_neq.
Qed.

(** ** The list operations of the store *)

Section FirstMatch.

Variable p : Contact -> bool.

Lemma find_first_some l c : find_first p l = Some c -> In c l /\ p c = true.
Proof.
  induction l as [|a l IH]; simpl; [discriminate|].
  destruct (p a) eqn:Ha; intros H.
  - injection H as <-. auto.
  - destruct (IH H); auto.
Qed.

Lemma find_first_none l : find_first p l = None <-> forall c, In c l -> p c = false.
Proof.
  induction l as [|a l IH]; simpl.
  - split; [intros _ c []|reflexivity].
  - destruct (p a) eqn:Ha; split.
    + discriminate.
    + intros H. specialize (H a (or_introl eq_refl)). congruence.
    + intros H c [<-|Hc]; [assumption|]. now apply IH.
    + intros H. apply IH. auto.
Qed.

Lemma find_first_in l c :
  In c l -> p c = true -> exists c', find_first p l = Some c'.
Proof.
  intros Hin Hp. destruct (find_first p l) as [c'|] eqn:E; [eauto|].
  rewrite find_first_none in E. rewrite (E c Hin) in Hp. discriminate.
Qed.

Lemma delete_first_in l c : In c (delete_first p l) -> In c l.
Proof.
  induction l as [|a l IH]; simpl; [tauto|].
  destruct (p a); simpl; intuition.
Qed.

Lemma delete_first_map_nodup {B} (g : Contact -> B) l :
  NoDup (map g l) -> NoDup (map g (delete_first p l)).
Proof.
  induction l as [|a l IH]; simpl; [trivial|].
  intros H. inversion H as [|? ? Hn Hl]; subst.
  destruct (p a); simpl; [assumption|].
  constructor; [|auto].
  intros Hin. apply Hn. apply in_map_iff in Hin as (c & <- & Hc).
  apply in_map. now apply delete_first_in.
Qed.

Lemma delete_first_filter_length (q : Contact -> bool) l :
  List.length (filter q (delete_first p l)) <= List.length (filter q l).
Proof.
  induction l as [|a l IH]; simpl; [lia|].
  destruct (p a); simpl; destruct (q a); simpl; lia.
Qed.

(** When identifiers are unique, nothing is left under the identifier of
    the document that was removed. *)
Lemma delete_first_gone (g : Contact -> N) l c :
  (forall d, p d = N.eqb (g d) (g c)) ->
  NoDup (map g l) -> find_first p l = Some c ->
  find_first p (delete_first p l) = None.
Proof.
  intros Hp. induction l as [|a l IH]; simpl; [discriminate|].
  intros Hnd. inversion Hnd as [|? ? Hn Hl]; subst.
  destruct (p a) eqn:Ha.
  - intros H. injection H as <-. apply find_first_none. intros d Hd.
    rewrite Hp. apply N.eqb_neq. intros E. apply Hn. rewrite <- E.
    now apply in_map.
  - intros H. simpl. rewrite Ha. auto.
Qed.

Variable f : Contact -> Contact.

Lemma update_first_in l x :
  In x (update_first p f l) ->
  In x l \/ exists c, find_first p l = Some c /\ x = f c.
Proof.
  induction l as [|a l IH]; simpl; [tauto|].
  destruct (p a); simpl.
  - intros [<-|H]; eauto.
  - intros [<-|H]; auto. destruct (IH H) as [|]; auto.
Qed.

Lemma update_first_map {B} (g : Contact -> B) l :
  (forall c, g (f c) = g c) -> map g (update_first p f l) = map g l.
Proof.
  intros Hg. induction l as [|a l IH]; simpl; [reflexivity|].
  destruct (p a); simpl; congruence.
Qed.

Lemma update_first_filter_length (q : Contact -> bool) l :
  (forall c, q (f c) = q c) ->
  List.length (filter q (update_first p f l)) = List.length (filter q l).
Proof.
  intros Hq. induction l as [|a l IH]; simpl; [reflexivity|].
  destruct (p a); simpl.
  - rewrite Hq. now destruct (q a).
  - destruct (q a); simpl; congruence.
Qed.

(** The rewritten document is found again when [f] keeps it a match. *)
Lemma find_first_update_first l c :
  (forall d, p (f d) = p d) ->
  find_first p l = Some c -> find_first p (update_first p f l) = Some (f c).
Proof.
  intros Hf. induction l as [|a l IH]; simpl; [discriminate|].
  destruct (p a) eqn:Ha; simpl.
  - intros H. injection H as <-. now rewrite Hf, Ha.
  - rewrite Ha. auto.
Qed.

End FirstMatch.

(** ** The invariant of the contact collection *)

Lemma filter_matches_user u l : filter (matches [UserIdEq u]) l = contacts_of u l.
Proof. apply filter_ext. intros c. apply matches_user. Qed.

Lemma store_ok_empty : store_ok [] 0.
Proof. split; simpl; intros; try constructor; try tauto; lia. Qed.

Lemma NoDup_map_snoc {A B} (g : A -> B) (l : list A) (x : A) :
  NoDup (map g l) -> ~ In (g x) (map g l) -> NoDup (map g (l ++ [x])).
Proof.
  intros Hl Hx. rewrite map_app. simpl.
  apply NoDup_app; [assumption|repeat constructor; simpl; tauto|].
  intros b Hb [<-|[]]. contradiction.
Qed.

Lemma store_ok_insert l n c :
  store_ok l n ->
  doc_id c = n ->
  List.length (contacts_of (doc_user_id c) l) < 5 ->
  find_first (matches [UserIdEq (doc_user_id c); PhoneEq (doc_phone c)]) l = None ->
  store_ok (l ++ [c]) (N.succ n).
Proof.
  intros [Hf Hu H5 Hp] Hid Hlt Hnone. split.
  - intros d Hd. apply in_app_iff in Hd as [Hd|[<-|[]]].
    + specialize (Hf d Hd). lia.
    + lia.
  - apply NoDup_map_snoc; [assumption|].
    intros Hin. apply in_map_iff in Hin as (d & Hd & Hin).
    specialize (Hf d Hin). lia.
  - intros u. unfold contacts_of in *. rewrite filter_app, length_app. simpl.
    unfold owned_by at 2. destruct (String.eqb_spec (doc_user_id c) u) as [<-|]; simpl.
    + lia.
    + specialize (H5 u). unfold contacts_of in H5. lia.
  - apply NoDup_map_snoc; [assumption|].
    intros Hin. apply in_map_iff in Hin as (d & Hd & Hin).
    rewrite find_first_none in Hnone. specialize (Hnone d Hin).
    assert (matches [UserIdEq (doc_user_id c); PhoneEq (doc_phone c)] d = true) as E.
    { apply matches_user_phone. unfold owner_phone in Hd. split; congruence. }
    congruence.
Qed.

Lemma store_ok_delete p l n : store_ok l n -> store_ok (delete_first p l) n.
Proof.
  intros [Hf Hu H5 Hp]. split.
  - intros c Hc. apply Hf. eapply delete_first_in; eauto.
  - now apply delete_first_map_nodup.
  - intros u. unfold contacts_of.
    pose proof (delete_first_filter_length p (owned_by u) l).
    specialize (H5 u). unfold contacts_of in H5. lia.
  - now apply delete_first_map_nodup.
Qed.

(** The duplicate check of [update_contact], on the list: no other document
    of the same owner holds the phone the update writes. *)
Lemma update_first_phones_unique o f l c :
  NoDup (map doc_id l) ->
  NoDup (map owner_phone l) ->
  find_first (matches [IdEq o]) l = Some c ->
  doc_user_id (f c) = doc_user_id c ->
  (doc_phone (f c) = doc_phone c \/
   find_first (matches [UserIdEq (doc_user_id c); PhoneEq (doc_phone (f c)); IdNe o]) l = None) ->
  NoDup (map owner_phone (update_first (matches [IdEq o]) f l)).
Proof.
  intros Hid Hk Hc Hu Hsafe.
  destruct Hsafe as [Hsame|Hnone].
  { assert (forall d, In d l -> matches [IdEq o] d = true -> owner_phone (f d) = owner_phone d) as Hf.
    { clear Hk. revert Hid Hc. induction l as [|a l IH]; simpl; [tauto|].
      intros Hid. inversion Hid as [|? ? Hn Hl]; subst.
      destruct (matches [IdEq o] a) eqn:Ha.
      - intros H. injection H as ->. intros d [<-|Hd] Hm.
        + unfold owner_phone. congruence.
        + exfalso. apply Hn. rewrite matches_id in Ha, Hm.
          apply N.eqb_eq in Ha, Hm. rewrite Ha, <- Hm. now apply in_map.
      - intros H d [<-|Hd] Hm; [congruence|]. now apply IH. }
    clear Hc Hid. induction l as [|a l IH]; simpl; [constructor|].
    simpl in Hk. inversion Hk as [|? ? Hn Hl]; subst.
    destruct (matches [IdEq o] a) eqn:Ha; simpl.
    - rewrite Hf; simpl; auto.
    - constructor.
      + intros Hin. apply in_map_iff in Hin as (d & Hd & Hin).
        apply update_first_in in Hin as [Hin|(e & He & ->)].
        * apply Hn. rewrite <- Hd. now apply in_map.
        * apply find_first_some in He as [He1 He2].
          rewrite Hf in Hd by (simpl; auto).
          apply Hn. rewrite <- Hd. now apply in_map.
      + apply IH; [assumption|]. intros d Hd. apply Hf. now right. }
  rewrite find_first_none in Hnone.
  assert (forall d, In d l -> doc_id d <> o -> owner_phone d <> owner_phone (f c)) as Hother.
  { intros d Hd Hne E. specialize (Hnone d Hd).
    assert (matches [UserIdEq (doc_user_id c); PhoneEq (doc_phone (f c)); IdNe o] d = true) as T.
    { apply matches_other_phone. unfold owner_phone in E.
      repeat split; [congruence|congruence|assumption]. }
    congruence. }
  clear Hnone. revert Hid Hk Hc Hother.
  induction l as [|a l IH]; simpl; [constructor|].
  intros Hid Hk. inversion Hid as [|? ? Hn Hl]; inversion Hk as [|? ? Hn' Hl']; subst.
  destruct (matches [IdEq o] a) eqn:Ha; simpl.
  - intros H Hother. injection H as ->. constructor; [|assumption].
    intros Hin. apply in_map_iff in Hin as (d & Hd & Hin).
    apply (Hother d); [now right| |assumption].
    intros E. apply Hn. rewrite matches_id in Ha. apply N.eqb_eq in Ha.
    rewrite Ha, <- E. now apply in_map.
  - intros H Hother. constructor.
    + intros Hin. apply in_map_iff in Hin as (d & Hd & Hin).
      apply update_first_in in Hin as [Hin|(e & He & ->)].
      * apply Hn'. rewrite <- Hd. now apply in_map.
      * assert (e = c) by congruence. subst e.
        apply (Hother a); [now left| |congruence].
        rewrite matches_id in Ha. now apply N.eqb_neq in Ha.
    + apply IH; auto.
Qed.

Lemma store_ok_update o f l n c :
  store_ok l n ->
  find_first (matches [IdEq o]) l = Some c ->
  (forall d, doc_id (f d) = doc_id d) ->
  (forall d, doc_user_id (f d) = doc_user_id d) ->
  (doc_phone (f c) = doc_phone c \/
   find_first (matches [UserIdEq (doc_user_id c); PhoneEq (doc_phone (f c)); IdNe o]) l = None) ->
  store_ok (update_first (matches [IdEq o]) f l) n.
Proof.
  intros [Hf Hu H5 Hp] Hc Hid Huser Hsafe. split.
  - intros d Hd. apply update_first_in in Hd as [Hd|(e & He & ->)]; [auto|].
    rewrite Hid. apply Hf. now apply find_first_some in He.
  - now rewrite update_first_map.
  - intros u. unfold contacts_of. rewrite update_first_filter_length; [apply H5|].
    intros d. unfold owned_by. now rewrite Huser.
  - eapply update_first_phones_unique; eauto.
Qed.

(** ** Running a handler *)

Lemma find_first_ext p q l :
  (forall c, p c = q c) -> find_first p l = find_first q l.
Proof.
  intros E. induction l as [|a l IH]; simpl; [reflexivity|].
  now rewrite E, IH.
Qed.

Lemma find_one_by_id o l : find_first (matches [IdEq o]) l = contact_by_id o l.
Proof. apply find_first_ext. intros c. apply matches_id. Qed.

Lemma contact_by_id_some o l c :
  contact_by_id o l = Some c -> In c l /\ doc_id c = o.
Proof.
  intros H. apply find_first_some in H as [Hin Hid].
  now apply N.eqb_eq in Hid.
Qed.

Lemma delete_first_by_id o l :
  NoDup (map doc_id l) ->
  delete_first (matches [IdEq o]) l = filter (fun d => negb (N.eqb (doc_id d) o)) l.
Proof.
  induction l as [|a l IH]; simpl; [reflexivity|].
  intros H. inversion H as [|? ? Hn Hl]; subst.
  rewrite matches_id. destruct (N.eqb_spec (doc_id a) o) as [E|E]; simpl.
  - symmetry. apply forallb_filter_id. apply forallb_forall. intros d Hd.
    apply negb_true_iff, N.eqb_neq. intros E'. apply Hn. rewrite E, <- E'.
    now apply in_map.
  - now rewrite IH.
Qed.

(** ** Delete *)

(** C7: for a well-formed identifier, deleting a contact that does not exist
    fails with NotFound (404) and leaves the collection as it was; deleting a
    contact that exists returns nothing under status 204 and removes exactly
    that document, after which a second delete of the same identifier fails
    with NotFound (404). *)
Theorem delete_contact_then_not_found
        (contact_id : string) (o : Bson.ObjectId) (w : World) :
  Bson.parse contact_id = Some o ->
  faults w = [] ->
  NoDup (map doc_id (trusted_contacts w)) ->
  (contact_by_id o (trusted_contacts w) = None ->
     fst (delete_contact contact_id w) = Raise NotFound
     /\ status_of HTTP_204_NO_CONTENT (fst (delete_contact contact_id w)) = 404
     /\ trusted_contacts (snd (delete_contact contact_id w)) = trusted_contacts w)
  /\
  (forall c, contact_by_id o (trusted_contacts w) = Some c ->
     let w1 := snd (delete_contact contact_id w) in
     fst (delete_contact contact_id w) = Return tt
     /\ status_of HTTP_204_NO_CONTENT (fst (delete_contact contact_id w)) = 204
     /\ trusted_contacts w1
        = filter (fun d => negb (N.eqb (doc_id d) o)) (trusted_contacts w)
     /\ contact_by_id o (trusted_contacts w1) = None
     /\ fst (delete_contact contact_id w1) = Raise NotFound
     /\ status_of HTTP_204_NO_CONTENT (fst (delete_contact contact_id w1)) = 404).
Proof.
  intros Hp Hf Hnd. healthy w Hf.
  unfold delete_contact. run_store. rewrite Hp. simpl.
  rewrite find_one_by_id. split.
  - intros ->. simpl. auto.
  - intros c Hc. rewrite Hc. simpl. rewrite find_one_by_id.
    assert (contact_by_id o (delete_first (matches [IdEq o]) tc) = None) as Hgone.
    { rewrite <- find_one_by_id.
      apply (@delete_first_gone (matches [IdEq o]) doc_id tc c); auto.
      - intros d. rewrite matches_id.
        apply contact_by_id_some in Hc as [_ Hc]. now rewrite Hc.
      - now rewrite find_one_by_id. }
    rewrite Hgone. simpl. rewrite delete_first_by_id by assumption.
    repeat split.
Qed.

Lemma delete_contact_then_not_found_witness :
  fst (delete_contact mom_id mom_world) = Return tt
  /\ fst (delete_contact mom_id (snd (delete_contact mom_id mom_world)))
     = Raise NotFound.
Proof.
  assert (Bson.parse mom_id = Some 0%N) as Hp by reflexivity.
  assert (faults mom_world = []) as Hf by reflexivity.
  assert (NoDup (map doc_id (trusted_contacts mom_world))) as Hnd
    by (simpl; repeat constructor; simpl; tauto).
  destruct (delete_contact_then_not_found mom_id mom_world Hp Hf Hnd) as [_ H].
  destruct (H mom_doc eq_refl) as (H1 & _ & _ & _ & H2 & _).
  split; assumption.
Defined.

(** ** Update with an empty payload *)

(** C5: an update of an existing contact whose payload sets no field fails
    with BadRequest (400, "No fields to update"); the contact collection is
    exactly as before, so no [updated_at] is refreshed, and the clock was not
    even read. *)
Theorem update_contact_empty_payload
        (contact_id : string) (o : Bson.ObjectId) (c : Contact) (w : World) :
  Bson.parse contact_id = Some o ->
  faults w = [] ->
  contact_by_id o (trusted_contacts w) = Some c ->
  let r := update_contact contact_id (mkUpdate unset unset unset) w in
  fst r = Raise NoOp
  /\ status_of HTTP_200_OK (fst r) = 400
  /\ trusted_contacts (snd r) = trusted_contacts w
  /\ contact_by_id o (trusted_contacts (snd r)) = Some c
  /\ notifications (snd r) = notifications w
  /\ tick (snd r) = tick w.
Proof.
  intros Hp Hf Hc. healthy w Hf.
  unfold update_contact. run_store. rewrite Hp. simpl.
  rewrite find_one_by_id, Hc. simpl. repeat split. assumption.
Qed.

Lemma update_contact_empty_payload_witness :
  fst (update_contact mom_id (mkUpdate unset unset unset) mom_world) = Raise NoOp.
Proof.
  apply (@update_contact_empty_payload mom_id 0%N mom_doc mom_world); reflexivity.
Defined.

(** ** Failures of the connection *)

(** C3: [get_contact] reads the store inside the [try] block that guards the
    conversion of the identifier, so with a well-formed identifier a lost
    connection on that read is answered with InvalidIdentifier (400). *)
Theorem get_contact_masks_connection_failure
        (contact_id : string) (o : Bson.ObjectId) (w : World) (fs : list bool) :
  Bson.parse contact_id = Some o ->
  faults w = true :: fs ->
  fst (get_contact contact_id w) = Raise InvalidIdentifier
  /\ status_of HTTP_200_OK (fst (get_contact contact_id w)) = 400.
Proof.
  intros Hp Hf.
  destruct w as [tc ns no clk t fs0 ol]; simpl in *; subst fs0.
  unfold get_contact. run_store. rewrite Hp. simpl. split; reflexivity.
Qed.

Lemma get_contact_masks_connection_failure_witness :
  fst (get_contact mom_id (with_faults [true] mom_world)) = Raise InvalidIdentifier.
Proof.
  apply (@get_contact_masks_connection_failure
           mom_id 0%N (with_faults [true] mom_world) []); reflexivity.
Defined.

(** The handlers that convert the identifier in a [try] block of its own,
    and those that take no identifier, let the same failure through, and the
    transport layer answers 500. *)
Lemma siblings_propagate_connection_failure
      (contact_id : string) (o : Bson.ObjectId) (w : World) (fs : list bool)
      (u : TrustedContactUpdate) (req : NotifyContactRequest)
      (c : TrustedContactCreate) (user_id : string) (batch : NotifyAllRequest) :
  Bson.parse contact_id = Some o ->
  faults w = true :: fs ->
  ncr_contact_id req = contact_id ->
  fst (update_contact contact_id u w) = Raise ConnectionFailure
  /\ fst (delete_contact contact_id w) = Raise ConnectionFailure
  /\ fst (verify_contact contact_id w) = Raise ConnectionFailure
  /\ fst (notify_contact req w) = Raise ConnectionFailure
  /\ fst (create_contact c w) = Raise ConnectionFailure
  /\ fst (get_user_contacts user_id w) = Raise ConnectionFailure
  /\ fst (notify_all_contacts user_id batch w) = Raise ConnectionFailure
  /\ status_of HTTP_204_NO_CONTENT (fst (delete_contact contact_id w)) = 500.
Proof.
  intros Hp Hf Hr.
  destruct w as [tc ns no clk t fs0 ol]; simpl in *; subst fs0.
  unfold update_contact, delete_contact, verify_contact, notify_contact,
    create_contact, get_user_contacts, notify_all_contacts.
  run_store. rewrite Hr, Hp. simpl. repeat split.
Qed.

(** ** Create *)

(** C2: a create request for a user who already has five or more contacts
    fails with LimitExceeded and persists nothing; otherwise, when a contact
    of the same user has the same phone, it fails with DuplicatePhone and
    persists nothing; otherwise exactly one contact is appended, with the
    fields of the request, unverified, [created_at] equal to [updated_at],
    and the reply is that contact: the identifier the store gave it, the
    same fields, unverified, both timestamps the reading of the clock (of
    which the stored document keeps the milliseconds); the status is 201 for
    a request that passed validation. *)
Theorem create_contact_spec (contact : TrustedContactCreate) (w : World) :
  faults w = [] ->
  let u := tcc_user_id contact in
  let r := create_contact contact w in
  let mine := contacts_of u (trusted_contacts w) in
  (5 <= List.length mine ->
     fst r = Raise LimitExceeded
     /\ status_checked valid_response HTTP_201_CREATED (fst r) = 400
     /\ trusted_contacts (snd r) = trusted_contacts w
     /\ notifications (snd r) = notifications w)
  /\
  (List.length mine < 5 ->
   (exists c, In c (trusted_contacts w)
              /\ doc_user_id c = u /\ doc_phone c = Some (tcc_phone contact)) ->
     fst r = Raise DuplicatePhone
     /\ status_checked valid_response HTTP_201_CREATED (fst r) = 400
     /\ trusted_contacts (snd r) = trusted_contacts w
     /\ notifications (snd r) = notifications w)
  /\
  (List.length mine < 5 ->
   (forall c, In c (trusted_contacts w) ->
              doc_user_id c = u -> doc_phone c <> Some (tcc_phone contact)) ->
     let now := utc w (tick w) in
     let new := {| doc_id := next_oid w;
                   doc_user_id := u;
                   doc_name := Some (tcc_name contact);
                   doc_phone := Some (tcc_phone contact);
                   doc_relationship := Some (tcc_relationship contact);
                   doc_is_verified := false;
                   doc_created_at := bson_datetime now;
                   doc_updated_at := bson_datetime now |} in
     trusted_contacts (snd r) = trusted_contacts w ++ [new]
     /\ notifications (snd r) = notifications w
     /\ doc_created_at new = doc_updated_at new
     /\ fst r = Return {| cd_id := Bson.str (next_oid w);
                          cd_user_id := u;
                          cd_name := Some (tcc_name contact);
                          cd_phone := Some (tcc_phone contact);
                          cd_relationship := Some (tcc_relationship contact);
                          cd_is_verified := false;
                          cd_created_at := now;
                          cd_updated_at := now |}
     /\ (valid_create contact = true ->
         status_checked valid_response HTTP_201_CREATED (fst r) = 201)).
Proof.
  intros Hf u r mine. subst u r mine. healthy w Hf.
  unfold create_contact. run_store. rewrite filter_matches_user.
  split; [|split].
  - intros H5. apply Nat.leb_le in H5. rewrite H5. simpl. repeat split.
  - intros H5 (c & Hin & Hu & Hph). apply Nat.leb_gt in H5. rewrite H5. simpl.
    destruct (@find_first_in
                (matches [UserIdEq (tcc_user_id contact);
                          PhoneEq (Some (tcc_phone contact))]) tc c Hin)
      as [c' ->].
    { now apply matches_user_phone. }
    simpl. repeat split.
  - intros H5 Hnone. apply Nat.leb_gt in H5. rewrite H5. simpl.
    assert (find_first (matches [UserIdEq (tcc_user_id contact);
                                 PhoneEq (Some (tcc_phone contact))]) tc = None)
      as ->.
    { apply find_first_none. intros c Hin.
      destruct (matches _ c) eqn:E; [|reflexivity].
      apply matches_user_phone in E as [E1 E2]. now destruct (Hnone c Hin E1). }
    simpl. repeat split.
    intros Hv. unfold valid_create in Hv. unfold valid_response, contact_helper.
    cbn [cd_name cd_phone cd_relationship doc_name doc_phone doc_relationship].
    now rewrite Hv.
Qed.

Lemma create_contact_spec_witness :
  fst (create_contact mom (empty_world sample_clock []))
  = Return (mkContactDict mom_id "u1" (Some "Mom"%string) (Some "5551234567"%string)
              (Some "parent"%string) false 0%Z 0%Z)
  /\ trusted_contacts mom_world = [mom_doc]
  /\ fst (create_contact dad mom_world)
     = Return (mkContactDict dad_id "u1" (Some "Dad"%string)
                 (Some "5559876543"%string) (Some "parent"%string) false
                 1500%Z 1500%Z)
  /\ trusted_contacts family_world = [mom_doc; dad_doc]
  /\ fst (create_contact mom mom_world) = Raise DuplicatePhone.
Proof.
  destruct (@create_contact_spec mom (empty_world sample_clock []) eq_refl)
    as (_ & _ & H1).
  destruct (@create_contact_spec dad mom_world eq_refl) as (_ & _ & H2).
  destruct (@create_contact_spec mom mom_world eq_refl) as (_ & H3 & _).
  destruct H1 as (S1 & _ & _ & R1 & _); [simpl; lia|intros c []|].
  destruct H2 as (S2 & _ & _ & R2 & _);
    [simpl; lia|intros c [<-|[]] _; discriminate|].
  destruct H3 as (R3 & _);
    [simpl; lia|exists mom_doc; simpl; repeat split; now left|].
  repeat split; assumption.
Defined.

(** ** Notify all *)

(** The loop over the contacts, on a healthy connection: one record per
    contact is appended, in the order of the list. *)
Lemma notify_each_healthy user_id req cs :
  forall acc tc ns no clk t ol,
  exists new,
    notify_each user_id req cs acc (mkWorld tc ns no clk t [] ol)
    = (Return (acc ++ map name_phone cs),
       mkWorld tc (ns ++ new) (no + N.of_nat (List.length cs))%N clk
               (t + List.length cs) []
               (ol ++ repeat OpInsertNotification (List.length cs)))
    /\ List.length new = List.length cs
    /\ map ntf_contact_name new = map doc_name cs
    /\ map ntf_contact_phone new = map doc_phone cs
    /\ map ntf_contact_id new = map (fun c => Bson.str (doc_id c)) cs
    /\ map ntf_sent_at new
       = map (fun k => bson_datetime (clk k)) (seq t (List.length cs))
    /\ Forall (batch_record user_id req) new.
Proof.
  induction cs as [|c cs IH]; intros acc tc ns no clk t ol.
  - exists []. simpl. rewrite !app_nil_r, N.add_0_r, Nat.add_0_r.
    repeat split. constructor.
  - cbn [notify_each]. run_store.
    destruct (IH (acc ++ [name_phone c]) tc
                 (ns ++ [mkNotification no (Bson.str (doc_id c)) user_id
                           (doc_name c) (doc_phone c) (nar_message req)
                           (nar_latitude req) (nar_longitude req)
                           (nar_location_name req) (bson_datetime (clk t)) "sent"])
                 (N.succ no) clk (S t) (ol ++ [OpInsertNotification]))
      as (new & Hrun & Hlen & Hn & Hp & Hi & Hs & Hall).
    eexists (_ :: new). split; [|repeat split].
    + unfold name_phone in *. rewrite Hrun. f_equal.
      * now rewrite <- app_assoc.
      * rewrite <- !app_assoc. simpl. f_equal; [lia|lia].
    + simpl. now rewrite Hlen.
    + simpl. now rewrite Hn.
    + simpl. now rewrite Hp.
    + simpl. now rewrite Hi.
    + simpl. now rewrite Hs.
    + constructor; [repeat split|assumption].
Qed.

(** C4: a batch for a user without contacts fails with NotFound (404) and
    writes no record; a batch for a user with N >= 1 contacts appends exactly
    N records, one per contact in the order of the list, each with status
    "sent" and the name and phone of its contact, and replies with the count
    (in the message), the list of name and phone pairs, and the reading of
    the clock taken after the last record; a record keeps the milliseconds
    of the clock reading taken for it. *)
Theorem notify_all_contacts_spec
        (user_id : string) (req : NotifyAllRequest) (w : World) :
  faults w = [] ->
  let cs := contacts_of user_id (trusted_contacts w) in
  let r := notify_all_contacts user_id req w in
  (cs = [] ->
     fst r = Raise NoContactsFound
     /\ status_of HTTP_200_OK (fst r) = 404
     /\ notifications (snd r) = notifications w)
  /\
  (cs <> [] ->
     exists new,
       notifications (snd r) = notifications w ++ new
       /\ List.length new = List.length cs
       /\ map ntf_contact_name new = map doc_name cs
       /\ map ntf_contact_phone new = map doc_phone cs
       /\ map ntf_contact_id new = map (fun c => Bson.str (doc_id c)) cs
       /\ map ntf_sent_at new
          = map (fun k => bson_datetime (utc w k)) (seq (tick w) (List.length cs))
       /\ Forall (batch_record user_id req) new
       /\ trusted_contacts (snd r) = trusted_contacts w
       /\ fst r = Return
            {| nar_reply_message :=
                 ("Emergency alert sent to "
                    ++ str_of_nat (List.length cs) ++ " contact(s)")%string;
               nar_reply_contacts := map name_phone cs;
               nar_reply_sent_at := utc w (tick w + List.length cs) |}
       /\ status_of HTTP_200_OK (fst r) = 200).
Proof.
  intros Hf cs r. subst cs r. healthy w Hf.
  unfold notify_all_contacts. run_store. rewrite filter_matches_user.
  split.
  - intros ->. repeat split.
  - intros Hne. destruct (contacts_of user_id tc) as [|c cs] eqn:E; [congruence|].
    destruct (notify_each_healthy user_id req (c :: cs) [] tc ns no clk t
                (ol ++ [OpFind [UserIdEq user_id]]))
      as (new & Hrun & Hlen & Hn & Hp & Hi & Hs & Hall).
    rewrite Hrun. simpl. exists new. rewrite length_map.
    repeat split; assumption.
Qed.

Lemma notify_all_contacts_spec_witness :
  fst (notify_all_contacts "u1" (mkNotifyAll "help" None None None) mom_world)
  = Return {| nar_reply_message := "Emergency alert sent to 1 contact(s)";
              nar_reply_contacts := [name_phone mom_doc];
              nar_reply_sent_at := 3000%Z |}.
Proof.
  destruct (@notify_all_contacts_spec "u1" (mkNotifyAll "help" None None None)
              mom_world eq_refl) as [_ H].
  destruct H as (new & _ & _ & _ & _ & _ & _ & _ & _ & Hr & _).
  - discriminate.
  - exact Hr.
Defined.

(** ** Notify one *)

(** C8 (as amended): a notification whose [contact_id] is a well-formed
    identifier fails with NotFound (404) and writes nothing when no contact
    is stored under it; otherwise it appends exactly one record with status
    "sent" that carries the contact's current name and phone, replies with
    that name, that phone and the [sent_at] it read from the clock for the
    record (of which the stored record keeps the milliseconds), and leaves
    the contact collection, [is_verified] included, as it was. *)
Theorem notify_contact_spec
        (req : NotifyContactRequest) (o : Bson.ObjectId) (w : World) :
  Bson.parse (ncr_contact_id req) = Some o ->
  faults w = [] ->
  let r := notify_contact req w in
  (contact_by_id o (trusted_contacts w) = None ->
     fst r = Raise NotFound
     /\ status_of HTTP_200_OK (fst r) = 404
     /\ notifications (snd r) = notifications w
     /\ trusted_contacts (snd r) = trusted_contacts w)
  /\
  (forall c, contact_by_id o (trusted_contacts w) = Some c ->
     let now := utc w (tick w) in
     notifications (snd r)
     = notifications w
       ++ [{| ntf_id := next_oid w;
              ntf_contact_id := ncr_contact_id req;
              ntf_user_id := doc_user_id c;
              ntf_contact_name := doc_name c;
              ntf_contact_phone := doc_phone c;
              ntf_message := ncr_message req;
              ntf_latitude := ncr_latitude req;
              ntf_longitude := ncr_longitude req;
              ntf_location_name := ncr_location_name req;
              ntf_sent_at := bson_datetime now;
              ntf_status := "sent" |}]
     /\ fst r = Return {| nr_message := "Emergency alert sent successfully";
                          nr_contact_name := doc_name c;
                          nr_contact_phone := doc_phone c;
                          nr_sent_at := now |}
     /\ status_of HTTP_200_OK (fst r) = 200
     /\ trusted_contacts (snd r) = trusted_contacts w).
Proof.
  intros Hp Hf r. subst r. healthy w Hf.
  unfold notify_contact. run_store. rewrite Hp. simpl.
  rewrite find_one_by_id. split.
  - intros ->. simpl. repeat split.
  - intros c ->. simpl. repeat split.
Qed.

Lemma notify_contact_spec_witness :
  fst (notify_contact (mkNotifyOne mom_id "help" None None None) mom_world)
  = Return {| nr_message := "Emergency alert sent successfully";
              nr_contact_name := Some "Mom"%string;
              nr_contact_phone := Some "5551234567"%string;
              nr_sent_at := 1500%Z |}
  /\ map ntf_sent_at
       (notifications
          (snd (notify_contact (mkNotifyOne mom_id "help" None None None) mom_world)))
     = [1000%Z].
Proof.
  destruct (@notify_contact_spec (mkNotifyOne mom_id "help" None None None) 0%N
              mom_world eq_refl eq_refl) as [_ H].
  destruct (H mom_doc eq_refl) as (Hn & Hr & _).
  split; [exact Hr|]. rewrite Hn. reflexivity.
Defined.

(** C8 as stated fails on a malformed [contact_id]: no contact has such an
    identifier, and the answer is InvalidIdentifier (400), not NotFound. *)
Lemma notify_contact_malformed_id :
  let req := mkNotifyOne "not-an-id" "help" None None None in
  ~ ((forall c, In c (trusted_contacts mom_world) ->
                Bson.str (doc_id c) <> ncr_contact_id req) ->
     fst (notify_contact req mom_world) = Raise NotFound).
Proof.
  intros req H.
  assert (fst (notify_contact req mom_world) = Raise InvalidIdentifier) as E
    by reflexivity.
  rewrite E in H. 
  assert (Raise (A := NotifyReply) InvalidIdentifier = Raise NotFound) as X.
  { apply H. intros c [<-|[]]. vm_compute. discriminate. }
  discriminate X.
Qed.

(** ** Verify *)

Lemma apply_set_matches_id o d c :
  matches [IdEq o] (apply_set d c) = matches [IdEq o] c.
Proof. now rewrite !matches_id. Qed.

Lemma verify_contact_healthy contact_id o c tc ns no clk t ol :
  Bson.parse contact_id = Some o ->
  contact_by_id o tc = Some c ->
  verify_contact contact_id (mkWorld tc ns no clk t [] ol)
  = (Return verified_reply,
     mkWorld (update_first (matches [IdEq o]) (apply_set (verify_set (bson_datetime (clk t)))) tc)
             ns no clk (S t) [] (ol ++ [OpUpdateOne [IdEq o]])).
Proof.
  intros Hp Hc. unfold verify_contact. run_store. rewrite Hp. simpl.
  rewrite find_one_by_id, Hc. reflexivity.
Qed.

Lemma verify_set_same_identity o now l :
  same_identity l (update_first (matches [IdEq o]) (apply_set (verify_set now)) l)
  /\ same_details l (update_first (matches [IdEq o]) (apply_set (verify_set now)) l).
Proof.
  unfold same_identity, same_details.
  repeat split; apply update_first_map; reflexivity.
Qed.

(** C9: on a healthy connection, each of any number n >= 1 of successive
    verifications of an existing contact succeeds with status 200 and
    [verified: true] (the second call included); afterwards the contact is
    verified and its name, phone, relationship and owner are as before, and no
    document's identifier, owner, creation time, name, phone or relationship
    was written. *)
Theorem verify_contact_idempotent
        (contact_id : string) (o : Bson.ObjectId) (c : Contact) (n : nat) (w : World) :
  Bson.parse contact_id = Some o ->
  faults w = [] ->
  contact_by_id o (trusted_contacts w) = Some c ->
  1 <= n ->
  let r := verify_times n contact_id w in
  fst r = repeat (Return verified_reply) n
  /\ Forall (fun x => status_of HTTP_200_OK x = 200) (fst r)
  /\ same_identity (trusted_contacts w) (trusted_contacts (snd r))
  /\ same_details (trusted_contacts w) (trusted_contacts (snd r))
  /\ exists c',
       contact_by_id o (trusted_contacts (snd r)) = Some c'
       /\ doc_is_verified c' = true
       /\ doc_name c' = doc_name c
       /\ doc_phone c' = doc_phone c
       /\ doc_relationship c' = doc_relationship c
       /\ doc_user_id c' = doc_user_id c.
Proof.
  intros Hp Hf Hc Hn r. subst r. healthy w Hf.
  revert c tc t ol Hc Hn.
  induction n as [|n IH]; intros c tc t ol Hc Hn; [lia|].
  cbn [verify_times]. rewrite (@verify_contact_healthy contact_id o c tc ns no clk t ol Hp Hc).
  set (tc1 := update_first (matches [IdEq o]) (apply_set (verify_set (bson_datetime (clk t)))) tc).
  assert (contact_by_id o tc1 = Some (apply_set (verify_set (bson_datetime (clk t))) c)) as Hc1.
  { unfold tc1. rewrite <- find_one_by_id. apply find_first_update_first.
    - intros d. apply apply_set_matches_id.
    - now rewrite find_one_by_id. }
  destruct (verify_set_same_identity o (bson_datetime (clk t)) tc) as [(I1 & I2 & I3) (D1 & D2 & D3)].
  fold tc1 in I1, I2, I3, D1, D2, D3.
  destruct n as [|n].
  - simpl. repeat split; try assumption.
    + repeat constructor.
    + eexists. split; [exact Hc1|]. repeat split.
  - specialize (IH _ tc1 (S t) (ol ++ [OpUpdateOne [IdEq o]]) Hc1 ltac:(lia)).
    destruct (verify_times (S n) contact_id _) as [rs w2] eqn:E.
    simpl in IH |- *.
    destruct IH as (R & S200 & (J1 & J2 & J3) & (E1 & E2 & E3) & c' & Hc' & V & F1 & F2 & F3 & F4).
    split; [now rewrite R|].
    split; [constructor; [reflexivity|assumption]|].
    split; [unfold same_identity; repeat split; congruence|].
    split; [unfold same_details; repeat split; congruence|].
    exists c'. simpl in *. repeat split; assumption.
Qed.

Lemma verify_contact_idempotent_witness :
  fst (verify_times 2 mom_id mom_world) = [Return verified_reply; Return verified_reply]
  /\ map doc_is_verified (trusted_contacts (snd (verify_times 2 mom_id mom_world)))
     = [true].
Proof.
  split.
  - apply (@verify_contact_idempotent mom_id 0%N mom_doc 2 mom_world);
      solve [reflexivity | lia].
  - reflexivity.
Defined.

(** ** Update *)

Lemma skipn_app_length {A} (l l' : list A) : skipn (List.length l) (l ++ l') = l'.
Proof. induction l as [|a l IH]; simpl; auto. Qed.

Lemma find_one_after_set o d l c :
  contact_by_id o l = Some c ->
  find_first (matches [IdEq o]) (update_first (matches [IdEq o]) (apply_set d) l)
  = Some (apply_set d c).
Proof.
  intros Hc. apply find_first_update_first.
  - intros x. apply apply_set_matches_id.
  - now rewrite find_one_by_id.
Qed.

(** C6: on a healthy connection, an update issues the phone-duplicate check
    exactly when the identifier is that of a stored contact, [phone] is among
    the fields supplied and it differs from the phone stored; an update that
    does not supply [phone], or supplies the phone stored, never fails with
    DuplicatePhone whatever the other contacts hold (and succeeds when it
    supplies a field); an update to a phone that another contact of the same
    owner holds fails with DuplicatePhone and writes nothing. *)
Theorem update_contact_duplicate_check
        (contact_id : string) (contact_update : TrustedContactUpdate) (w : World) :
  faults w = [] ->
  let r := update_contact contact_id contact_update w in
  (existsb is_duplicate_check (issued (update_contact contact_id contact_update) w) = true
   <-> exists o c p,
         Bson.parse contact_id = Some o
         /\ contact_by_id o (trusted_contacts w) = Some c
         /\ tcu_phone contact_update = given p
         /\ p <> doc_phone c)
  /\
  (forall o c,
     Bson.parse contact_id = Some o ->
     contact_by_id o (trusted_contacts w) = Some c ->
     tcu_phone contact_update = unset
     \/ tcu_phone contact_update = given (doc_phone c) ->
     fst r <> Raise DuplicatePhone
     /\ (dict_is_empty (dict_exclude_unset contact_update) = false ->
         exists reply, fst r = Return reply))
  /\
  (forall o c p d,
     Bson.parse contact_id = Some o ->
     contact_by_id o (trusted_contacts w) = Some c ->
     tcu_phone contact_update = given p ->
     p <> doc_phone c ->
     In d (trusted_contacts w) ->
     doc_user_id d = doc_user_id c -> doc_phone d = p -> doc_id d <> o ->
     fst r = Raise DuplicatePhone
     /\ trusted_contacts (snd r) = trusted_contacts w).
Proof.
  intros Hf r. subst r. healthy w Hf.
  unfold issued, update_contact. run_store.
  destruct (Bson.parse contact_id) as [o|] eqn:Hp; simpl.
  2:{ rewrite <- (app_nil_r ol) at 2. rewrite skipn_app_length. simpl.
      split; [|split].
      - split; [discriminate|]. intros (o & c & p & X & _). discriminate.
      - intros o c X. discriminate.
      - intros o c p d X. discriminate. }
  rewrite find_one_by_id.
  destruct (contact_by_id o tc) as [c|] eqn:Hc; simpl.
  2:{ rewrite skipn_app_length. simpl.
      split; [|split].
      - split; [discriminate|]. intros (o' & c & p & X & Y & _). congruence.
      - intros o' c X Y. congruence.
      - intros o' c p d X Y. congruence. }
  destruct contact_update as [un up ur]. simpl.
  assert (forall p, opt_str_eqb p (doc_phone c) = true -> p = doc_phone c) as Heq
    by (intros p; apply opt_str_eqb_eq).
  assert (forall p, opt_str_eqb p (doc_phone c) = false -> p <> doc_phone c) as Hneq.
  { intros p E X. apply opt_str_eqb_eq in X. congruence. }
  destruct up as [|p].
  - (* phone is not supplied *)
    split; [|split].
    + destruct un, ur; simpl; rewrite ?find_one_by_id, ?Hc; simpl;
        rewrite ?(@find_one_after_set o _ tc c Hc); simpl;
        rewrite <- ?app_assoc, skipn_app_length; simpl;
        (split; [discriminate|intros (o' & c' & p & _ & _ & X & _); discriminate]).
    + intros o' c' Ho' Hc' _. 
      destruct un, ur; simpl; rewrite ?find_one_by_id, ?Hc; simpl;
        rewrite ?(@find_one_after_set o _ tc c Hc); simpl;
        (split; [discriminate|intros X; try discriminate X; eauto]).
    + intros o' c' p d _ _ X. discriminate X.
  - destruct (opt_str_eqb p (doc_phone c)) eqn:E; simpl.
    + (* the phone supplied is the current one *)
      apply Heq in E. subst p.
      split; [|split].
      * destruct un, ur; simpl; rewrite find_one_by_id, Hc; simpl;
          rewrite (@find_one_after_set o _ tc c Hc); simpl;
          rewrite <- ?app_assoc, skipn_app_length; simpl;
          (split; [discriminate|]);
          intros (o' & c' & p' & Ho' & Hc' & X & Y); congruence.
      * intros o' c' _ _ _.
        destruct un, ur; simpl; rewrite find_one_by_id, Hc; simpl;
          rewrite (@find_one_after_set o _ tc c Hc); simpl;
          (split; [discriminate|eauto]).
      * intros o' c' p' d Ho' Hc' X Y. exfalso. congruence.
    + (* the phone supplied differs: the check runs *)
      apply Hneq in E.
      split; [|split].
      * split; [intros _; exists o, c, p; auto|intros _].
        destruct un, ur; simpl;
          destruct (find_first _ tc); simpl;
          rewrite ?find_one_by_id, ?Hc; simpl;
          rewrite ?(@find_one_after_set o _ tc c Hc); simpl;
          rewrite <- ?app_assoc, skipn_app_length; reflexivity.
      * intros o' c' Ho' Hc' [X|X]; [discriminate X|].
        injection X as ->. congruence.
      * intros o' c' p' d Ho' Hc' X Y Hin Hu Hph Hid.
        assert (p' = p) by congruence. subst p'.
        assert (o' = o) by congruence. subst o'.
        assert (c' = c) by congruence. subst c'.
        destruct (@find_first_in
                    (matches [UserIdEq (doc_user_id c); PhoneEq p; IdNe o]) tc d Hin)
          as [d' Hd'].
        { now apply matches_other_phone. }
        destruct un, ur; simpl; rewrite Hd'; simpl; auto.
Qed.

Lemma update_contact_duplicate_check_witness :
  fst (update_contact dad_id (mkUpdate unset unset (given (Some "father"%string)))
         family_world) <> Raise DuplicatePhone
  /\ fst (update_contact dad_id (mkUpdate unset (given (doc_phone mom_doc)) unset)
            family_world) = Raise DuplicatePhone.
Proof.
  split.
  - destruct (@update_contact_duplicate_check dad_id
                (mkUpdate unset unset (given (Some "father"%string)))
                family_world eq_refl) as (_ & H & _).
    destruct (H 1%N dad_doc eq_refl eq_refl (or_introl eq_refl)) as [Hne _].
    exact Hne.
  - destruct (@update_contact_duplicate_check dad_id
                (mkUpdate unset (given (doc_phone mom_doc)) unset)
                family_world eq_refl) as (_ & _ & H).
    destruct (H 1%N dad_doc (doc_phone mom_doc) mom_doc eq_refl eq_refl eq_refl)
      as [Hr _].
    + discriminate.
    + simpl. now left.
    + reflexivity.
    + reflexivity.
    + discriminate.
    + exact Hr.
Defined.

(** C10: whenever an update succeeds, no document of the collection has
    changed its identifier, owner, creation time or verification flag; in
    particular the contact updated, which is the one of the reply, keeps its
    [user_id], [is_verified] and [created_at]. *)
Theorem update_contact_frame
        (contact_id : string) (contact_update : TrustedContactUpdate)
        (w w' : World) (reply : ContactDict) :
  update_contact contact_id contact_update w = (Return reply, w') ->
  same_identity (trusted_contacts w) (trusted_contacts w')
  /\ map doc_is_verified (trusted_contacts w') = map doc_is_verified (trusted_contacts w)
  /\ exists o c c',
       Bson.parse contact_id = Some o
       /\ contact_by_id o (trusted_contacts w) = Some c
       /\ contact_by_id o (trusted_contacts w') = Some c'
       /\ reply = contact_helper c'
       /\ doc_user_id c' = doc_user_id c
       /\ doc_is_verified c' = doc_is_verified c
       /\ doc_created_at c' = doc_created_at c.
Proof.
  intros H. destruct w as [tc ns no clk t fs ol].
  destruct contact_update as [un up ur].
  unfold update_contact in H. run_store.
  branch H;
    injection H as <- <-; simpl;
    repeat match goal with
           | E : Some _ = Some _ |- _ => injection E as ?; subst
           end;
    try (exfalso; congruence);
    match goal with
    | Hc : find_first (matches [IdEq ?o]) ?tc = Some ?c,
      Hu : find_first (matches [IdEq ?o])
             (update_first _ (apply_set ?d) ?tc) = Some ?c1 |- _ =>
        rewrite find_one_by_id in Hc;
        rewrite (@find_one_after_set o d tc c Hc) in Hu;
        injection Hu as <-;
        split; [unfold same_identity; repeat split;
                apply update_first_map; reflexivity|];
        split; [apply update_first_map; reflexivity|];
        exists o, c, (apply_set d c); repeat split;
        [assumption|rewrite <- find_one_by_id; now apply find_one_after_set]
    end.
Qed.

Lemma update_contact_frame_witness :
  let r := update_contact mom_id (mkUpdate (given (Some "Mum"%string)) unset unset)
             mom_world in
  map doc_user_id (trusted_contacts (snd r)) = map doc_user_id (trusted_contacts mom_world)
  /\ map doc_is_verified (trusted_contacts (snd r))
     = map doc_is_verified (trusted_contacts mom_world)
  /\ map doc_created_at (trusted_contacts (snd r))
     = map doc_created_at (trusted_contacts mom_world).
Proof.
  intros r.
  destruct (@update_contact_frame mom_id
              (mkUpdate (given (Some "Mum"%string)) unset unset)
              mom_world (snd r) mum_reply eq_refl)
    as ((_ & Hu & Hc) & Hv & _).
  repeat split; assumption.
Defined.

(** ** The invariant along a run *)

Lemma create_contact_ok contact w :
  world_ok w -> world_ok (snd (create_contact contact w)).
Proof.
  unfold world_ok. intros Hok.
  destruct (create_contact contact w) as [out w'] eqn:H.
  destruct w as [tc ns no clk t fs ol].
  unfold create_contact in H. run_store.
  branch H; injection H as <- <-; simpl; try assumption;
    (apply store_ok_insert; simpl;
     [assumption|reflexivity| |assumption]);
    match goal with
    | E : (5 <=? _) = false |- _ =>
        apply Nat.leb_gt in E; now rewrite filter_matches_user in E
    end.
Qed.

Lemma update_contact_ok contact_id contact_update w :
  world_ok w -> world_ok (snd (update_contact contact_id contact_update w)).
Proof.
  unfold world_ok. intros Hok.
  destruct (update_contact contact_id contact_update w) as [out w'] eqn:H.
  destruct w as [tc ns no clk t fs ol].
  destruct contact_update as [un up ur].
  unfold update_contact in H. run_store.
  branch H; injection H as <- <-; simpl; try assumption;
    try (exfalso; congruence);
    repeat match goal with
           | E : Some _ = Some _ |- _ => injection E as ?; subst
           end;
    match goal with
    | Hc : find_first (matches [IdEq ?o]) ?tc = Some ?c |- _ =>
        apply (@store_ok_update o _ tc _ c); auto; simpl; auto
    end;
    left; now apply opt_str_eqb_eq.
Qed.

Lemma delete_contact_ok contact_id w :
  world_ok w -> world_ok (snd (delete_contact contact_id w)).
Proof.
  unfold world_ok. intros Hok.
  destruct (delete_contact contact_id w) as [out w'] eqn:H.
  destruct w as [tc ns no clk t fs ol].
  unfold delete_contact in H. run_store.
  branch H; injection H as <- <-; simpl; try assumption;
    now apply store_ok_delete.
Qed.

Lemma verify_contact_ok contact_id w :
  world_ok w -> world_ok (snd (verify_contact contact_id w)).
Proof.
  unfold world_ok. intros Hok.
  destruct (verify_contact contact_id w) as [out w'] eqn:H.
  destruct w as [tc ns no clk t fs ol].
  unfold verify_contact in H. run_store.
  branch H; injection H as <- <-; simpl; try assumption;
    match goal with
    | Hc : find_first (matches [IdEq ?o]) ?tc = Some ?c |- _ =>
        apply (@store_ok_update o _ tc _ c); auto
    end.
Qed.

(** The notification log is append-only: the requests that write contacts
    leave it as it is, so a record keeps the name and phone it was written
    with whatever happens to the contact afterwards. *)
Lemma serve_keeps_notifications r w :
  notifications (snd (serve r w)) = notifications w.
Proof.
  destruct w as [tc ns no clk t fs ol].
  destruct r as [c|i u|i|i]; simpl.
  - destruct (create_contact c _) as [out w'] eqn:H.
    unfold create_contact in H. run_store.
    branch H; injection H as <- <-; reflexivity.
  - destruct (update_contact i u _) as [out w'] eqn:H. destruct u as [un up ur].
    unfold update_contact in H. run_store.
    branch H; injection H as <- <-; reflexivity.
  - destruct (delete_contact i _) as [out w'] eqn:H.
    unfold delete_contact in H. run_store.
    branch H; injection H as <- <-; reflexivity.
  - destruct (verify_contact i _) as [out w'] eqn:H.
    unfold verify_contact in H. run_store.
    branch H; injection H as <- <-; reflexivity.
Qed.

Lemma serve_ok r w : world_ok w -> world_ok (snd (serve r w)).
Proof.
  intros Hok. destruct r as [c|i u|i|i]; simpl.
  - pose proof (@create_contact_ok c w Hok). now destruct (create_contact c w).
  - pose proof (@update_contact_ok i u w Hok). now destruct (update_contact i u w).
  - pose proof (@delete_contact_ok i w Hok). now destruct (delete_contact i w).
  - pose proof (@verify_contact_ok i w Hok). now destruct (verify_contact i w).
Qed.

Lemma serve_all_ok rs : forall w, world_ok w -> world_ok (snd (serve_all rs w)).
Proof.
  induction rs as [|r rs IH]; intros w Hok; simpl; [assumption|].
  pose proof (@serve_ok r w Hok) as H1.
  destruct (serve r w) as [s w1]. simpl in H1.
  specialize (IH w1 H1). now destruct (serve_all rs w1).
Qed.

Lemma nodup_map_nth_error {A B} (g : A -> B) (l : list A) i j a b :
  NoDup (map g l) ->
  nth_error l i = Some a -> nth_error l j = Some b -> g a = g b -> i = j.
Proof.
  intros Hnd Hi Hj E.
  apply (proj1 (NoDup_nth_error (map g l)) Hnd).
  - rewrite length_map. apply nth_error_Some. congruence.
  - rewrite !nth_error_map, Hi, Hj. simpl. congruence.
Qed.

(** C1: starting from the empty store, under any clock and any fate of the
    connection, after any sequence of create, update, delete and verify
    requests that all succeeded, every user has at most 5 contacts and no two
    distinct contacts of a user have the same phone. *)
Theorem contacts_invariant
        (clock : nat -> datetime) (fs : list bool) (rs : list Request) :
  let run := serve_all rs (empty_world clock fs) in
  forallb succeeded (fst run) = true ->
  forall u,
    List.length (contacts_of u (trusted_contacts (snd run))) <= 5
    /\ forall i j c1 c2,
         i <> j ->
         nth_error (trusted_contacts (snd run)) i = Some c1 ->
         nth_error (trusted_contacts (snd run)) j = Some c2 ->
         doc_user_id c1 = u -> doc_user_id c2 = u ->
         doc_phone c1 <> doc_phone c2.
Proof.
  intros run _ u.
  assert (world_ok (snd run)) as [_ _ H5 Hp].
  { apply serve_all_ok. apply store_ok_empty. }
  split; [apply H5|].
  intros i j c1 c2 Hij H1 H2 U1 U2 E. apply Hij.
  apply (@nodup_map_nth_error _ _ owner_phone _ i j c1 c2 Hp H1 H2).
  unfold owner_phone. congruence.
Qed.

Lemma contacts_invariant_witness :
  List.length
    (contacts_of "u1"
       (trusted_contacts (snd (serve_all sample_requests (empty_world sample_clock [])))))
  <= 5.
Proof.
  exact (proj1 (@contacts_invariant sample_clock [] sample_requests eq_refl "u1")).
Defined.

(** * Further properties of the contact handlers *)

#[local] Arguments Bson.str : simpl never.

(** ** Identifiers as strings *)

Lemma hex_value_hex_char d : (d < 16)%N -> Bson.hex_value (Bson.hex_char d) = Some d.
Proof.
  intros H. rewrite <- (N2Nat.id d).
  assert (N.to_nat d < 16) as Hn by lia.
  destruct (N.to_nat d) as [|n]; [reflexivity|].
  do 15 (destruct n as [|n]; [reflexivity|]). lia.
Qed.

Lemma is_space_hex_char d : (d < 16)%N -> Bson.is_space (Bson.hex_char d) = false.
Proof.
  intros H. rewrite <- (N2Nat.id d).
  assert (N.to_nat d < 16) as Hn by lia.
  destruct (N.to_nat d) as [|n]; [reflexivity|].
  do 15 (destruct n as [|n]; [reflexivity|]). lia.
Qed.

Lemma to_hex_length k : forall n acc,
  String.length (Bson.to_hex k n acc) = k + String.length acc.
Proof.
  induction k as [|k IH]; intros n acc; simpl; [reflexivity|].
  rewrite IH. simpl. lia.
Qed.

(** Reading back the digits of [k] bytes. *)
Lemma fromhex_to_hex k : forall n acc len value,
  Bson.fromhex (Bson.to_hex (2 * k) n acc) len value
  = Bson.fromhex acc (len + N.of_nat k)%N
      (value * 256 ^ N.of_nat k + n mod 256 ^ N.of_nat k)%N.
Proof.
  induction k as [|k IH]; intros n acc len value.
  - simpl. rewrite N.mod_1_r. f_equal; lia.
  - replace (2 * S k) with (S (S (2 * k))) by lia.
    cbn [Bson.to_hex]. rewrite IH. cbn [Bson.fromhex].
    rewrite is_space_hex_char by (apply N.mod_lt; discriminate).
    rewrite !hex_value_hex_char by (apply N.mod_lt; discriminate).
    f_equal; [lia|].
    rewrite Nat2N.inj_succ, N.pow_succ_r'.
    assert (n mod 256 = n mod 16 + 16 * ((n / 16) mod 16))%N as E1
      by (change 256%N with (16 * 16)%N; apply N.Div0.mod_mul_r).
    assert (n / 16 / 16 = n / 256)%N as E2
      by (rewrite N.Div0.div_div; reflexivity).
    rewrite (N.Div0.mod_mul_r n 256 (256 ^ N.of_nat k)), E1, E2. ring.
Qed.

(** [ObjectId(str(oid)) == oid] for every twelve-byte identifier. *)
Lemma parse_str (o : Bson.ObjectId) :
  (o < 2 ^ 96)%N -> Bson.parse (Bson.str o) = Some o.
Proof.
  intros H. unfold Bson.parse, Bson.str.
  rewrite (N.div_small o (2 ^ 96)) by exact H. cbn [N.eqb].
  rewrite to_hex_length. change (24 + String.length "" =? 24) with true. cbv iota.
  change 24 with (2 * 12). rewrite fromhex_to_hex. cbn [Bson.fromhex].
  replace (256 ^ N.of_nat 12)%N with (2 ^ 96)%N by reflexivity.
  rewrite N.mod_small by exact H. rewrite N.mul_0_l, !N.add_0_l.
  reflexivity.
Qed.

(** ** Reading contacts *)

(** X1: on a healthy connection [get_contact] answers an identifier that
    [ObjectId] refuses with 400 and a well-formed identifier under which
    nothing is stored with 404; otherwise it returns the document stored
    under it, field by field, and the status is 200 when its name, phone
    and relationship are strings within the bounds of the response model,
    and 500 otherwise (a null field, say). *)
Theorem get_contact_spec (contact_id : string) (w : World) :
  faults w = [] ->
  let r := get_contact contact_id w in
  (Bson.parse contact_id = None ->
     fst r = Raise InvalidIdentifier
     /\ status_checked valid_response HTTP_200_OK (fst r) = 400)
  /\
  (forall o, Bson.parse contact_id = Some o ->
     (contact_by_id o (trusted_contacts w) = None ->
        fst r = Raise NotFound
        /\ status_checked valid_response HTTP_200_OK (fst r) = 404)
     /\
     (forall c, contact_by_id o (trusted_contacts w) = Some c ->
        fst r = Return {| cd_id := Bson.str (doc_id c);
                          cd_user_id := doc_user_id c;
                          cd_name := doc_name c;
                          cd_phone := doc_phone c;
                          cd_relationship := doc_relationship c;
                          cd_is_verified := doc_is_verified c;
                          cd_created_at := doc_created_at c;
                          cd_updated_at := doc_updated_at c |}
        /\ status_checked valid_response HTTP_200_OK (fst r)
           = if str_between 1 100 (doc_name c)
                && str_between 10 20 (doc_phone c)
                && str_between 1 50 (doc_relationship c)
             then 200 else 500)).
Proof.
  intros Hf r. subst r. healthy w Hf.
  unfold get_contact. run_store. split.
  - intros ->. simpl. split; reflexivity.
  - intros o ->. simpl. rewrite find_one_by_id. split.
    + intros ->. split; reflexivity.
    + intros c ->. split; reflexivity.
Qed.

Lemma get_user_contacts_healthy (user_id : string) (w : World) :
  faults w = [] ->
  fst (get_user_contacts user_id w)
  = Return (map contact_helper (contacts_of user_id (trusted_contacts w))).
Proof.
  intros Hf. healthy w Hf.
  unfold get_user_contacts. run_store. now rewrite filter_matches_user.
Qed.

Lemma valid_listing_map cs :
  valid_listing (map contact_helper cs)
  = forallb (fun c => str_between 1 100 (doc_name c)
                      && str_between 10 20 (doc_phone c)
                      && str_between 1 50 (doc_relationship c)) cs.
Proof.
  unfold valid_listing. induction cs as [|c cs IH]; simpl; [reflexivity|].
  now rewrite IH.
Qed.

(** X2: on a healthy connection the listing of a user is the list of their
    contacts in insertion order, field by field; a user without contacts
    gets the empty list under status 200, not an error; the status is 200
    when every contact listed has a name, a phone and a relationship within
    the bounds of the response model, and 500 as soon as one has not. *)
Theorem get_user_contacts_spec (user_id : string) (w : World) :
  faults w = [] ->
  let r := get_user_contacts user_id w in
  let cs := contacts_of user_id (trusted_contacts w) in
  fst r = Return (map (fun c => {| cd_id := Bson.str (doc_id c);
                                   cd_user_id := doc_user_id c;
                                   cd_name := doc_name c;
                                   cd_phone := doc_phone c;
                                   cd_relationship := doc_relationship c;
                                   cd_is_verified := doc_is_verified c;
                                   cd_created_at := doc_created_at c;
                                   cd_updated_at := doc_updated_at c |}) cs)
  /\ status_checked valid_listing HTTP_200_OK (fst r)
     = (if forallb (fun c => str_between 1 100 (doc_name c)
                             && str_between 10 20 (doc_phone c)
                             && str_between 1 50 (doc_relationship c)) cs
        then 200 else 500)
  /\ ((forall c, In c (trusted_contacts w) -> doc_user_id c <> user_id) ->
      fst r = Return []
      /\ status_checked valid_listing HTTP_200_OK (fst r) = 200).
Proof.
  intros Hf r cs. subst r cs. rewrite (@get_user_contacts_healthy user_id w Hf).
  unfold status_checked. rewrite valid_listing_map.
  split; [reflexivity|]. split; [reflexivity|].
  intros Hnone. destruct w as [tc ns no clk t fs ol]. simpl in *.
  assert (contacts_of user_id tc = []) as ->; [|split; reflexivity].
  unfold contacts_of. induction tc as [|a l IH]; simpl; [reflexivity|].
  unfold owned_by at 1. destruct (String.eqb_spec (doc_user_id a) user_id) as [E|E].
  - destruct (Hnone a (or_introl eq_refl) E).
  - apply IH. intros c Hc. apply Hnone. now right.
Qed.

(** X3: whatever the connection does, [get_contact] and [get_user_contacts]
    leave the contacts and the notification log as they were and do not read
    the clock. *)
Theorem reads_change_nothing (contact_id user_id : string) (w : World) :
  (trusted_contacts (snd (get_contact contact_id w)) = trusted_contacts w
   /\ notifications (snd (get_contact contact_id w)) = notifications w
   /\ tick (snd (get_contact contact_id w)) = tick w)
  /\
  (trusted_contacts (snd (get_user_contacts user_id w)) = trusted_contacts w
   /\ notifications (snd (get_user_contacts user_id w)) = notifications w
   /\ tick (snd (get_user_contacts user_id w)) = tick w).
Proof.
  destruct w as [tc ns no clk t fs ol]. split.
  - destruct (get_contact contact_id _) as [out w'] eqn:H.
    unfold get_contact in H. run_store.
    branch H; injection H as <- <-; repeat split.
  - destruct (get_user_contacts user_id _) as [out w'] eqn:H.
    unfold get_user_contacts in H. run_store.
    branch H; injection H as <- <-; repeat split.
Qed.

Lemma contacts_of_owned u l : Forall (fun c => doc_user_id c = u) (contacts_of u l).
Proof.
  apply Forall_forall. intros c Hc. apply filter_In in Hc as [_ Hc].
  now apply String.eqb_eq in Hc.
Qed.

Lemma NoDup_map_filter {A B} (g : A -> B) (p : A -> bool) (l : list A) :
  NoDup (map g l) -> NoDup (map g (filter p l)).
Proof.
  induction l as [|a l IH]; simpl; [trivial|].
  intros H. inversion H as [|? ? Hn Hl]; subst.
  destruct (p a); simpl; [|auto].
  constructor; [|auto]. intros Hin. apply Hn.
  apply in_map_iff in Hin as (x & <- & Hx). apply in_map.
  now apply filter_In in Hx as [Hx _].
Qed.

Lemma contacts_of_phones_unique u l :
  NoDup (map owner_phone l) -> NoDup (map doc_phone (contacts_of u l)).
Proof.
  intros H. apply (NoDup_map_filter owner_phone (owned_by u)) in H.
  fold (contacts_of u l) in H. pose proof (contacts_of_owned u l) as Hu.
  induction (contacts_of u l) as [|a m IH]; simpl; [constructor|].
  simpl in H. inversion H as [|? ? Hn Hl]; subst.
  inversion Hu as [|? ? Ha Hm]; subst.
  constructor; [|auto]. intros Hin. apply Hn.
  apply in_map_iff in Hin as (x & Hx & Hin). apply in_map_iff.
  exists x. split; [|assumption]. unfold owner_phone.
  rewrite Forall_forall in Hm. now rewrite (Hm x Hin), Hx.
Qed.

(** X4: after any run of create, update, delete and verify requests from the
    empty store, the listing of a user has at most 5 entries, all owned by
    that user, with pairwise distinct phones. *)
Theorem listing_after_run
        (clock : nat -> datetime) (fs : list bool) (rs : list Request)
        (user_id : string) :
  let w := snd (serve_all rs (empty_world clock fs)) in
  faults w = [] ->
  exists listing,
    fst (get_user_contacts user_id w) = Return listing
    /\ List.length listing <= 5
    /\ Forall (fun d => cd_user_id d = user_id) listing
    /\ NoDup (map cd_phone listing).
Proof.
  intros w Hf.
  assert (world_ok w) as [_ _ H5 Hp] by (apply serve_all_ok, store_ok_empty).
  eexists. split; [exact (@get_user_contacts_healthy user_id w Hf)|]. repeat split.
  - rewrite length_map. apply H5.
  - apply Forall_forall. intros d Hd. apply in_map_iff in Hd as (c & <- & Hc).
    simpl. pose proof (contacts_of_owned user_id (trusted_contacts w)) as Ho.
    rewrite Forall_forall in Ho. now apply Ho.
  - rewrite map_map. simpl. now apply contacts_of_phones_unique.
Qed.

(** ** Writing, then reading *)

Lemma contact_by_id_snoc_fresh l x :
  (forall c, In c l -> (doc_id c < doc_id x)%N) ->
  contact_by_id (doc_id x) (l ++ [x]) = Some x.
Proof.
  unfold contact_by_id. induction l as [|a l IH]; simpl; intros H.
  - now rewrite N.eqb_refl.
  - destruct (N.eqb_spec (doc_id a) (doc_id x)) as [E|E].
    + specialize (H a (or_introl eq_refl)). lia.
    + apply IH. intros c Hc. apply H. now right.
Qed.

Lemma get_contact_healthy contact_id o c tc ns no clk t ol :
  Bson.parse contact_id = Some o ->
  contact_by_id o tc = Some c ->
  fst (get_contact contact_id (mkWorld tc ns no clk t [] ol))
  = Return (contact_helper c).
Proof.
  intros Hp Hc. unfold get_contact. run_store. rewrite Hp. simpl.
  now rewrite find_one_by_id, Hc.
Qed.

Lemma get_contact_absent contact_id o tc ns no clk t ol :
  Bson.parse contact_id = Some o ->
  contact_by_id o tc = None ->
  fst (get_contact contact_id (mkWorld tc ns no clk t [] ol)) = Raise NotFound.
Proof.
  intros Hp Hc. unfold get_contact. run_store. rewrite Hp. simpl.
  now rewrite find_one_by_id, Hc.
Qed.

(** X5: the identifier in the reply of a successful create, given back to
    [get_contact], returns the contact of that reply with its two timestamps
    cut to the millisecond, as the store keeps them (as long as the driver
    has twelve-byte identifiers left); the reply is unverified and its two
    timestamps are equal. *)
Theorem create_then_get
        (contact : TrustedContactCreate) (w w1 : World) (reply : ContactDict) :
  world_ok w ->
  (next_oid w < 2 ^ 96)%N ->
  create_contact contact w = (Return reply, w1) ->
  faults w1 = [] ->
  fst (get_contact (cd_id reply) w1)
  = Return {| cd_id := cd_id reply;
              cd_user_id := cd_user_id reply;
              cd_name := cd_name reply;
              cd_phone := cd_phone reply;
              cd_relationship := cd_relationship reply;
              cd_is_verified := cd_is_verified reply;
              cd_created_at := bson_datetime (cd_created_at reply);
              cd_updated_at := bson_datetime (cd_updated_at reply) |}
  /\ cd_is_verified reply = false
  /\ cd_created_at reply = cd_updated_at reply.
Proof.
  intros Hok Hlt H Hf. destruct w as [tc ns no clk t fs ol].
  unfold world_ok in Hok. cbn [trusted_contacts next_oid] in Hok, Hlt.
  destruct Hok as [Hfresh _ _ _].
  pose proof (@parse_str no Hlt) as Hp. clear Hlt.
  unfold create_contact in H. run_store.
  branch H; injection H as <- <-; simpl in Hf; subst;
    cbn [cd_id cd_user_id cd_name cd_phone cd_relationship cd_is_verified
         cd_created_at cd_updated_at contact_helper doc_id doc_user_id doc_name
         doc_phone doc_relationship doc_is_verified doc_created_at doc_updated_at];
    (split; [|split; reflexivity]);
    match goal with
    | |- fst (get_contact _ (mkWorld (_ ++ [?x]) _ _ _ _ _ _)) = _ =>
        rewrite (@get_contact_healthy (Bson.str no) no x);
        [reflexivity|exact Hp
        |apply (@contact_by_id_snoc_fresh tc x); exact Hfresh]
    end.
Qed.

(** X6: after an update that succeeded, [get_contact] on the same identifier
    returns the reply of the update. *)
Theorem update_then_get
        (contact_id : string) (contact_update : TrustedContactUpdate)
        (w w1 : World) (reply : ContactDict) :
  update_contact contact_id contact_update w = (Return reply, w1) ->
  faults w1 = [] ->
  fst (get_contact contact_id w1) = Return reply.
Proof.
  intros H Hf. destruct w as [tc ns no clk t fs ol].
  destruct contact_update as [un up ur].
  unfold update_contact in H. run_store.
  branch H; injection H as <- <-; simpl in Hf; subst;
    try (exfalso; congruence);
    repeat match goal with
           | E : Some _ = Some _ |- _ => injection E as ?; subst
           end;
    match goal with
    | Hp : Bson.parse _ = Some ?o,
      Hu : find_first (matches [IdEq ?o]) (update_first _ _ _) = Some ?c1 |- _ =>
        apply get_contact_healthy with (o := o);
        [exact Hp|now rewrite <- find_one_by_id]
    end.
Qed.

(** X7: after a delete that succeeded, [get_contact] on the same identifier
    answers 404 (identifiers are unique in the store). *)
Theorem delete_then_get (contact_id : string) (w w1 : World) :
  NoDup (map doc_id (trusted_contacts w)) ->
  delete_contact contact_id w = (Return tt, w1) ->
  faults w1 = [] ->
  fst (get_contact contact_id w1) = Raise NotFound
  /\ status_of HTTP_200_OK (fst (get_contact contact_id w1)) = 404.
Proof.
  intros Hnd H Hf. destruct w as [tc ns no clk t fs ol].
  unfold delete_contact in H. run_store.
  assert (forall o c, find_first (matches [IdEq o]) tc = Some c ->
            find_first (matches [IdEq o]) (delete_first (matches [IdEq o]) tc) = None)
    as Hgone.
  { intros o c Hc. apply (@delete_first_gone (matches [IdEq o]) doc_id tc c); auto.
    intros d. rewrite matches_id. apply find_first_some in Hc as [_ Hc].
    rewrite matches_id in Hc. apply N.eqb_eq in Hc. now rewrite Hc. }
  branch H; injection H as <-; simpl in Hf; subst;
    match goal with
    | Hp : Bson.parse _ = Some ?o, Hc : find_first _ tc = Some ?c |- _ =>
        specialize (Hgone o c Hc); rewrite find_one_by_id in Hgone;
        rewrite (@get_contact_absent contact_id o _ ns no clk t _ Hp Hgone);
        split; reflexivity
    end.
Qed.

(** X8: after a verification that succeeded, [get_contact] on the same
    identifier returns a contact with [is_verified] true. *)
Theorem verify_then_get (contact_id : string) (w w1 : World) (v : VerifyReply) :
  verify_contact contact_id w = (Return v, w1) ->
  faults w1 = [] ->
  exists reply,
    fst (get_contact contact_id w1) = Return reply
    /\ cd_is_verified reply = true
    /\ vr_verified v = true.
Proof.
  intros H Hf. destruct w as [tc ns no clk t fs ol].
  unfold verify_contact in H. run_store.
  branch H; injection H as <- <-; simpl in Hf; subst.
  all: rewrite find_one_by_id in *.
  all: eexists; split;
        [eapply get_contact_healthy;
         [eassumption|rewrite <- find_one_by_id; apply find_one_after_set; eassumption]
        |split; reflexivity].
Qed.

Lemma update_first_others (p : Contact -> bool) (f : Contact -> Contact) l d :
  (forall x, p x = true -> p (f x) = true) ->
  p d = false ->
  (In d (update_first p f l) <-> In d l).
Proof.
  intros Hf Hd. induction l as [|a l IH]; simpl; [tauto|].
  destruct (p a) eqn:Ha; simpl.
  - split; intros [E|H]; auto.
    + subst d. rewrite (Hf a Ha) in Hd. discriminate.
    + subst d. congruence.
  - rewrite IH. tauto.
Qed.

(** X9: an update of an existing contact that supplies at least one field and
    meets no other contact of the same owner with the new phone writes exactly
    the fields supplied (a field supplied as null is written as null), sets
    [updated_at] to the milliseconds of the reading of the clock, keeps
    everything else, returns the contact as written, field by field, and
    leaves every other document alone; the status is 200 when the name, the
    phone and the relationship written are strings within the bounds of the
    response model, and 500 otherwise, though the write is done. *)
Theorem update_contact_applies
        (contact_id : string) (o : Bson.ObjectId) (c : Contact)
        (contact_update : TrustedContactUpdate) (w : World) :
  Bson.parse contact_id = Some o ->
  faults w = [] ->
  contact_by_id o (trusted_contacts w) = Some c ->
  dict_is_empty (dict_exclude_unset contact_update) = false ->
  (forall p d, tcu_phone contact_update = given p -> p <> doc_phone c ->
               In d (trusted_contacts w) ->
               doc_user_id d = doc_user_id c -> doc_phone d = p -> doc_id d = o) ->
  let r := update_contact contact_id contact_update w in
  let name := field_or (tcu_name contact_update) (doc_name c) in
  let phone := field_or (tcu_phone contact_update) (doc_phone c) in
  let relationship :=
    field_or (tcu_relationship contact_update) (doc_relationship c) in
  let updated_at := bson_datetime (utc w (tick w)) in
  fst r = Return {| cd_id := Bson.str (doc_id c);
                    cd_user_id := doc_user_id c;
                    cd_name := name;
                    cd_phone := phone;
                    cd_relationship := relationship;
                    cd_is_verified := doc_is_verified c;
                    cd_created_at := doc_created_at c;
                    cd_updated_at := updated_at |}
  /\ status_checked valid_response HTTP_200_OK (fst r)
     = (if str_between 1 100 name && str_between 10 20 phone
           && str_between 1 50 relationship
        then 200 else 500)
  /\ contact_by_id o (trusted_contacts (snd r))
     = Some {| doc_id := doc_id c;
               doc_user_id := doc_user_id c;
               doc_name := name;
               doc_phone := phone;
               doc_relationship := relationship;
               doc_is_verified := doc_is_verified c;
               doc_created_at := doc_created_at c;
               doc_updated_at := updated_at |}
  /\ (forall d, doc_id d <> o ->
        (In d (trusted_contacts (snd r)) <-> In d (trusted_contacts w))).
Proof.
  intros Hp Hf Hc Hd Hsafe r name phone relationship updated_at.
  subst r name phone relationship updated_at. healthy w Hf.
  assert (forall p, tcu_phone contact_update = given p ->
                    opt_str_eqb p (doc_phone c) = false ->
                    find_first (matches [UserIdEq (doc_user_id c); PhoneEq p; IdNe o]) tc
                    = None) as Hcheck.
  { intros p Hgiven E. apply find_first_none. intros d Hin.
    destruct (matches _ d) eqn:M; [|reflexivity].
    apply matches_other_phone in M as (M1 & M2 & M3). destruct M3.
    apply (Hsafe p d); auto. intros X. apply opt_str_eqb_eq in X. congruence. }
  assert (forall x, doc_id x <> o ->
            forall dct, In x (update_first (matches [IdEq o]) (apply_set dct) tc) <-> In x tc)
    as Hothers.
  { intros x Hx dct. apply update_first_others.
    - intros y. now rewrite !matches_id.
    - rewrite matches_id. now apply N.eqb_neq. }
  destruct contact_update as [un up ur].
  unfold update_contact. run_store. rewrite Hp. simpl.
  rewrite find_one_by_id, Hc. simpl. rewrite Hd.
  destruct up as [|p]; simpl.
  - rewrite find_one_by_id, Hc. simpl.
    rewrite (@find_one_after_set o _ tc c Hc). simpl.
    repeat split; try (apply Hothers; assumption).
    rewrite <- find_one_by_id. now rewrite (@find_one_after_set o _ tc c Hc).
  - destruct (opt_str_eqb p (doc_phone c)) eqn:E; simpl.
    + rewrite find_one_by_id, Hc. simpl.
      rewrite (@find_one_after_set o _ tc c Hc). simpl.
      repeat split; try (apply Hothers; assumption).
      rewrite <- find_one_by_id. now rewrite (@find_one_after_set o _ tc c Hc).
    + rewrite (Hcheck p eq_refl E). simpl.
      rewrite find_one_by_id, Hc. simpl.
      rewrite (@find_one_after_set o _ tc c Hc). simpl.
      repeat split; try (apply Hothers; assumption).
      rewrite <- find_one_by_id. now rewrite (@find_one_after_set o _ tc c Hc).
Qed.

(** ** A batch cut short *)

Lemma notify_each_cut user_id req cs :
  forall k acc tc ns no clk t ol fs,
  k < List.length cs ->
  exists new,
    notify_each user_id req cs acc
      (mkWorld tc ns no clk t (repeat false k ++ true :: fs) ol)
    = (Raise ConnectionFailure,
       mkWorld tc (ns ++ new) (no + N.of_nat k)%N clk (t + S k) fs
               (ol ++ repeat OpInsertNotification (S k)))
    /\ List.length new = k
    /\ map ntf_contact_name new = firstn k (map doc_name cs)
    /\ map ntf_contact_phone new = firstn k (map doc_phone cs)
    /\ Forall (batch_record user_id req) new.
Proof.
  induction cs as [|c cs IH]; intros k acc tc ns no clk t ol fs Hk;
    [simpl in Hk; lia|].
  destruct k as [|k].
  - exists []. cbn [notify_each]. run_store.
    rewrite app_nil_r, N.add_0_r, Nat.add_1_r. repeat split. constructor.
  - cbn [notify_each]. run_store.
    destruct (IH k (acc ++ [name_phone c]) tc
                 (ns ++ [mkNotification no (Bson.str (doc_id c)) user_id
                           (doc_name c) (doc_phone c) (nar_message req)
                           (nar_latitude req) (nar_longitude req)
                           (nar_location_name req) (bson_datetime (clk t)) "sent"])
                 (N.succ no) clk (S t) (ol ++ [OpInsertNotification]) fs)
      as (new & Hrun & Hlen & Hn & Hp & Hall); [lia|].
    eexists (_ :: new). split; [|repeat split].
    + unfold name_phone in *. rewrite Hrun. f_equal.
      rewrite <- !app_assoc. simpl. f_equal; lia.
    + simpl. now rewrite Hlen.
    + simpl. now rewrite Hn.
    + simpl. now rewrite Hp.
    + constructor; [repeat split|assumption].
Qed.

(** X10: when the connection is lost on the insert of the record number k+1 of
    a batch, the call fails with the connection error (500) and the k records
    already written stay in the log, in the order of the contacts. *)
Theorem notify_all_no_rollback
        (user_id : string) (req : NotifyAllRequest) (w : World)
        (k : nat) (fs : list bool) :
  faults w = false :: repeat false k ++ true :: fs ->
  k < List.length (contacts_of user_id (trusted_contacts w)) ->
  let cs := contacts_of user_id (trusted_contacts w) in
  let r := notify_all_contacts user_id req w in
  fst r = Raise ConnectionFailure
  /\ status_of HTTP_200_OK (fst r) = 500
  /\ exists new,
       notifications (snd r) = notifications w ++ new
       /\ List.length new = k
       /\ map ntf_contact_name new = firstn k (map doc_name cs)
       /\ map ntf_contact_phone new = firstn k (map doc_phone cs)
       /\ Forall (batch_record user_id req) new.
Proof.
  intros Hf Hk cs r. subst cs r.
  destruct w as [tc ns no clk t fs0 ol]; simpl in *; subst fs0.
  unfold notify_all_contacts. run_store. rewrite filter_matches_user.
  destruct (contacts_of user_id tc) as [|c cs] eqn:E; [simpl in Hk; lia|].
  destruct (@notify_each_cut user_id req (c :: cs) k [] tc ns no clk t
              (ol ++ [OpFind [UserIdEq user_id]]) fs Hk)
    as (new & Hrun & Hlen & Hn & Hp & Hall).
  rewrite Hrun. simpl. repeat split. exists new. repeat split; assumption.
Qed.

(** ** Witnesses of the properties above *)

Lemma get_contact_spec_witness :
  fst (get_contact mom_id mom_world) = Return (contact_helper mom_doc)
  /\ status_checked valid_response HTTP_200_OK (fst (get_contact mom_id mom_world))
     = 200
  /\ fst (get_contact dad_id mom_world) = Raise NotFound.
Proof.
  destruct (@get_contact_spec mom_id mom_world eq_refl) as [_ H1].
  destruct (@get_contact_spec dad_id mom_world eq_refl) as [_ H2].
  destruct (proj2 (H1 0%N eq_refl) mom_doc eq_refl) as [R S].
  split; [exact R|]. split; [exact S|].
  exact (proj1 (proj1 (H2 1%N eq_refl) eq_refl)).
Defined.

Lemma get_user_contacts_spec_witness :
  fst (get_user_contacts "u1" family_world)
  = Return [contact_helper mom_doc; contact_helper dad_doc]
  /\ fst (get_user_contacts "u2" family_world) = Return [].
Proof.
  split.
  - exact (proj1 (@get_user_contacts_spec "u1" family_world eq_refl)).
  - apply (proj2 (proj2 (@get_user_contacts_spec "u2" family_world eq_refl))).
    intros c [<-|[<-|[]]]; discriminate.
Defined.

Lemma listing_after_run_witness :
  exists listing,
    fst (get_user_contacts "u1"
           (snd (serve_all sample_requests (empty_world sample_clock []))))
    = Return listing
    /\ List.length listing <= 5.
Proof.
  destruct (@listing_after_run sample_clock [] sample_requests "u1" eq_refl)
    as (listing & H & Hlen & _).
  exists listing. split; assumption.
Defined.

Lemma create_then_get_witness :
  fst (get_contact dad_id family_world) = Return (contact_helper dad_doc).
Proof.
  refine (proj1 (@create_then_get dad mom_world family_world
                   (mkContactDict dad_id "u1" (Some "Dad"%string)
                      (Some "5559876543"%string) (Some "parent"%string) false
                      1500%Z 1500%Z) _ _ eq_refl eq_refl)).
  - exact (@create_contact_ok mom (empty_world sample_clock []) store_ok_empty).
  - reflexivity.
Defined.

Lemma update_contact_applies_witness :
  fst (update_contact mom_id (mkUpdate (given (Some "Mum"%string)) unset unset)
         mom_world)
  = Return mum_reply
  /\ status_checked valid_response HTTP_200_OK
       (fst (update_contact mom_id (mkUpdate unset (given None) unset) mom_world))
     = 500.
Proof.
  split.
  - refine (proj1 (@update_contact_applies mom_id 0%N mom_doc
                     (mkUpdate (given (Some "Mum"%string)) unset unset) mom_world
                     eq_refl eq_refl eq_refl eq_refl _)).
    intros p d X. discriminate X.
  - refine (proj1 (proj2 (@update_contact_applies mom_id 0%N mom_doc
                     (mkUpdate unset (given None) unset) mom_world
                     eq_refl eq_refl eq_refl eq_refl _))).
    intros p d _ _ [<-|[]] _ _. reflexivity.
Defined.

Lemma update_then_get_witness :
  fst (get_contact mom_id
         (snd (update_contact mom_id
                 (mkUpdate (given (Some "Mum"%string)) unset unset) mom_world)))
  = Return mum_reply.
Proof.
  apply (@update_then_get mom_id (mkUpdate (given (Some "Mum"%string)) unset unset)
           mom_world); reflexivity.
Defined.

Lemma delete_then_get_witness :
  fst (get_contact mom_id (snd (delete_contact mom_id mom_world))) = Raise NotFound.
Proof.
  refine (proj1 (@delete_then_get mom_id mom_world
                   (snd (delete_contact mom_id mom_world)) _ eq_refl eq_refl)).
  simpl. repeat constructor. simpl. tauto.
Defined.

Lemma verify_then_get_witness :
  exists reply,
    fst (get_contact mom_id (snd (verify_contact mom_id mom_world))) = Return reply
    /\ cd_is_verified reply = true.
Proof.
  destruct (@verify_then_get mom_id mom_world
              (snd (verify_contact mom_id mom_world)) verified_reply
              eq_refl eq_refl) as (reply & H & Hv & _).
  exists reply. split; assumption.
Defined.

Lemma notify_all_no_rollback_witness :
  let r := notify_all_contacts "u1" (mkNotifyAll "help" None None None)
             (with_faults [false; false; true] family_world) in
  fst r = Raise ConnectionFailure
  /\ exists new, notifications (snd r) = new /\ List.length new = 1.
Proof.
  intros r.
  destruct (@notify_all_no_rollback "u1" (mkNotifyAll "help" None None None)
              (with_faults [false; false; true] family_world) 1 [] eq_refl)
    as (H & _ & new & Hn & Hlen & _).
  - simpl. lia.
  - split; [exact H|]. exists new. split; [exact Hn|exact Hlen].
Defined.

(** * Properties of the video handlers *)

#[local] Arguments Videos.int64 : simpl never.
#[local] Arguments Videos.nonempty : simpl never.
#[local] Arguments Videos.fits : simpl never.

Section FirstWhere.

Context {A : Type}.
Variable p : A -> bool.

Lemma first_where_some l a : Videos.first_where p l = Some a -> In a l /\ p a = true.
Proof.
  induction l as [|x l IH]; simpl; [discriminate|].
  destruct (p x) eqn:Hx; intros H.
  - injection H as <-. auto.
  - destruct (IH H); auto.
Qed.

Lemma first_where_none l :
  Videos.first_where p l = None <-> forall a, In a l -> p a = false.
Proof.
  induction l as [|x l IH]; simpl.
  - split; [intros _ a []|reflexivity].
  - destruct (p x) eqn:Hx; split.
    + discriminate.
    + intros H. specialize (H x (or_introl eq_refl)). congruence.
    + intros H a [<-|Ha]; [assumption|]. now apply IH.
    + intros H. apply IH. auto.
Qed.

Variable f : A -> A.

Lemma rewrite_first_map {B} (g : A -> B) l :
  (forall a, g (f a) = g a) -> map g (Videos.rewrite_first p f l) = map g l.
Proof.
  intros Hg. induction l as [|x l IH]; simpl; [reflexivity|].
  destruct (p x); simpl; congruence.
Qed.

Lemma first_where_rewrite_first l a :
  (forall x, p (f x) = p x) ->
  Videos.first_where p l = Some a ->
  Videos.first_where p (Videos.rewrite_first p f l) = Some (f a).
Proof.
  intros Hf. induction l as [|x l IH]; simpl; [discriminate|].
  destruct (p x) eqn:Hx; simpl.
  - intros H. injection H as <-. now rewrite Hf, Hx.
  - rewrite Hx. auto.
Qed.

Lemma rewrite_first_others l a :
  (forall x, p x = true -> p (f x) = true) ->
  p a = false ->
  (In a (Videos.rewrite_first p f l) <-> In a l).
Proof.
  intros Hf Ha. induction l as [|x l IH]; simpl; [tauto|].
  destruct (p x) eqn:Hx; simpl.
  - split; intros [E|H]; auto.
    + subst a. rewrite (Hf x Hx) in Ha. discriminate.
    + subst a. congruence.
  - rewrite IH. tauto.
Qed.

End FirstWhere.

Lemma first_where_snoc_fresh (l : list Videos.Video) (x : Videos.Video) :
  (forall v, In v l -> Videos.v_id v <> Videos.v_id x) ->
  Videos.first_where (Videos.has_id (Videos.v_id x)) (l ++ [x]) = Some x.
Proof.
  unfold Videos.has_id. induction l as [|a l IH]; simpl; intros H.
  - now rewrite N.eqb_refl.
  - destruct (N.eqb_spec (Videos.v_id a) (Videos.v_id x)) as [E|E].
    + destruct (H a (or_introl eq_refl) E).
    + apply IH. intros v Hv. apply H. now right.
Qed.

Lemma drop_first_gone (l : list Videos.Video) o :
  NoDup (map Videos.v_id l) ->
  Videos.first_where (Videos.has_id o) (Videos.drop_first (Videos.has_id o) l) = None.
Proof.
  unfold Videos.has_id. induction l as [|a l IH]; simpl; [reflexivity|].
  intros H. inversion H as [|? ? Hn Hl]; subst.
  destruct (N.eqb_spec (Videos.v_id a) o) as [E|E].
  - apply first_where_none. intros v Hv. apply N.eqb_neq. intros E'.
    apply Hn. rewrite E, <- E'. now apply in_map.
  - simpl. destruct (N.eqb_spec (Videos.v_id a) o); [contradiction|auto].
Qed.

Lemma drop_first_by_id (l : list Videos.Video) o :
  NoDup (map Videos.v_id l) ->
  Videos.drop_first (Videos.has_id o) l
  = filter (fun v => negb (N.eqb (Videos.v_id v) o)) l.
Proof.
  unfold Videos.has_id. induction l as [|a l IH]; simpl; [reflexivity|].
  intros H. inversion H as [|? ? Hn Hl]; subst.
  destruct (N.eqb_spec (Videos.v_id a) o) as [E|E]; simpl.
  - symmetry. apply forallb_filter_id. apply forallb_forall. intros v Hv.
    apply negb_true_iff, N.eqb_neq. intros E'. apply Hn. rewrite E, <- E'.
    now apply in_map.
  - now rewrite IH.
Qed.

(** ** Reading one video *)

(** X11: [get_video] answers a malformed identifier with 400 without touching
    anything; with a well-formed identifier a lost connection is a 500 (not a
    400), a missing video a 404, and a stored video is returned under 200. *)
Theorem get_video_outcomes (video_id : string) (d : Videos.Database) :
  let r := Videos.get_video video_id d in
  (Bson.parse video_id = None ->
     fst r = Videos.Fail Videos.InvalidVideoId
     /\ Videos.status 200 (fst r) = 400
     /\ snd r = d)
  /\
  (forall o, Bson.parse video_id = Some o ->
     (forall fs, faults (Videos.world d) = true :: fs ->
        fst r = Videos.Fail (Videos.Py ConnectionFailure)
        /\ Videos.status 200 (fst r) = 500)
     /\
     (faults (Videos.world d) = [] ->
        (Videos.first_where (Videos.has_id o) (Videos.videos d) = None ->
           fst r = Videos.Fail Videos.VideoNotFound
           /\ Videos.status 200 (fst r) = 404)
        /\
        (forall v, Videos.first_where (Videos.has_id o) (Videos.videos d) = Some v ->
           fst r = Videos.Done (Videos.response v)
           /\ Videos.status 200 (fst r) = 200))).
Proof.
  intros r. subst r. unfold Videos.get_video. split.
  - intros Hp. run_videos. rewrite Hp. repeat split.
  - intros o Hp. split.
    + intros fs Hf. destruct d as [vs [tc ns no clk t fs0 ol]]; simpl in *; subst fs0.
      run_videos. rewrite Hp. simpl. split; reflexivity.
    + intros Hf. healthy_db d Hf. run_videos. rewrite Hp. simpl. split.
      * intros ->. split; reflexivity.
      * intros v ->. split; reflexivity.
Qed.

(** ** Creating a video *)

(** X12: [create_video] appends one video with the fields of the request, 0
    views and 0 likes, [created_at] and [updated_at] being two successive
    readings of the clock, kept to the millisecond, and returns it under 201; a duration that does not
    fit 8 bytes is an error (500) and nothing is stored. *)
Theorem create_video_spec (video : Videos.VideoCreate) (d : Videos.Database) :
  faults (Videos.world d) = [] ->
  (forall v, In v (Videos.videos d) -> Videos.v_id v <> next_oid (Videos.world d)) ->
  let w := Videos.world d in
  let r := Videos.create_video video d in
  let new := {| Videos.v_id := next_oid w;
                Videos.v_title := Videos.vc_title video;
                Videos.v_description := Videos.vc_description video;
                Videos.v_video_url := Videos.vc_video_url video;
                Videos.v_thumbnail_url := Videos.vc_thumbnail_url video;
                Videos.v_duration := Videos.vc_duration video;
                Videos.v_category := Videos.vc_category video;
                Videos.v_difficulty := Videos.vc_difficulty video;
                Videos.v_views := 0;
                Videos.v_likes := 0;
                Videos.v_created_at := bson_datetime (utc w (tick w));
                Videos.v_updated_at := bson_datetime (utc w (S (tick w))) |} in
  (Videos.int64 (Videos.vc_duration video) = true ->
     fst r = Videos.Done (Videos.response new)
     /\ Videos.status 201 (fst r) = 201
     /\ Videos.videos (snd r) = Videos.videos d ++ [new])
  /\
  (Videos.int64 (Videos.vc_duration video) = false ->
     fst r = Videos.Fail Videos.OverflowError
     /\ Videos.status 201 (fst r) = 500
     /\ Videos.videos (snd r) = Videos.videos d).
Proof.
  intros Hf Hfresh w r new. subst w r new. healthy_db d Hf.
  unfold Videos.create_video. run_videos. split.
  - intros ->. simpl.
    pose proof (@first_where_snoc_fresh vs
               (Videos.mkVideo no (Videos.vc_title video) (Videos.vc_description video)
                  (Videos.vc_video_url video) (Videos.vc_thumbnail_url video)
                  (Videos.vc_duration video) (Videos.vc_category video)
                  (Videos.vc_difficulty video) 0 0 (bson_datetime (clk t))
                  (bson_datetime (clk (S t)))) Hfresh) as X.
    cbn [Videos.v_id] in X. rewrite X. repeat split.
  - intros ->. simpl. repeat split.
Qed.

(** ** Updating a video *)

(** X13: an update of a video that sets no field is not an error: it writes
    nothing, does not read the clock, and returns the stored video (404 if
    there is none). *)
Theorem update_video_without_fields (video_id : string) (o : Bson.ObjectId)
        (d : Videos.Database) :
  Bson.parse video_id = Some o ->
  faults (Videos.world d) = [] ->
  let r := Videos.update_video video_id no_change d in
  Videos.videos (snd r) = Videos.videos d
  /\ tick (Videos.world (snd r)) = tick (Videos.world d)
  /\ (forall v, Videos.first_where (Videos.has_id o) (Videos.videos d) = Some v ->
        fst r = Videos.Done (Videos.response v)
        /\ Videos.status 200 (fst r) = 200)
  /\ (Videos.first_where (Videos.has_id o) (Videos.videos d) = None ->
        fst r = Videos.Fail Videos.VideoNotFound
        /\ Videos.status 200 (fst r) = 404).
Proof.
  intros Hp Hf r. subst r. healthy_db d Hf.
  unfold Videos.update_video. run_videos. rewrite Hp. simpl.
  destruct (Videos.first_where (Videos.has_id o) vs) as [v|] eqn:E; simpl.
  - split; [reflexivity|split; [reflexivity|split]].
    + intros v' X. injection X as <-. split; reflexivity.
    + discriminate.
  - split; [reflexivity|split; [reflexivity|split]].
    + discriminate.
    + intros _. split; reflexivity.
Qed.

(** X14: whenever [update_video] succeeds, no video has changed its
    identifier, its views, its likes or its creation time, and the collection
    has as many videos as before. *)
Theorem update_video_frame
        (video_id : string) (video_update : Videos.VideoUpdate)
        (d d' : Videos.Database) (reply : Videos.VideoResponse) :
  Videos.update_video video_id video_update d = (Videos.Done reply, d') ->
  map Videos.v_id (Videos.videos d') = map Videos.v_id (Videos.videos d)
  /\ map Videos.v_views (Videos.videos d') = map Videos.v_views (Videos.videos d)
  /\ map Videos.v_likes (Videos.videos d') = map Videos.v_likes (Videos.videos d)
  /\ map Videos.v_created_at (Videos.videos d')
     = map Videos.v_created_at (Videos.videos d)
  /\ List.length (Videos.videos d') = List.length (Videos.videos d).
Proof.
  intros H. destruct d as [vs [tc ns no clk t fs ol]].
  unfold Videos.update_video in H. run_videos.
  vbranch H; injection H as <- <-; simpl;
    repeat split; try reflexivity;
    try (apply rewrite_first_map; reflexivity).
  all: rewrite <- !(length_map Videos.v_id); f_equal;
    apply rewrite_first_map; reflexivity.
Qed.

(** ** Counting views and likes *)

Lemma int64_bounds z :
  Videos.int64 z = true <-> (- 2 ^ 63 <= z <= 2 ^ 63 - 1)%Z.
Proof.
  unfold Videos.int64. rewrite andb_true_iff, !Z.leb_le. tauto.
Qed.

Lemma bumped_0 k v : bumped k 0 v = v.
Proof. destruct v, k; unfold bumped; cbn -[Z.add]; f_equal; lia. Qed.

Lemma bumped_bump k n v : bumped k n (Videos.bump k v) = bumped k (1 + n) v.
Proof. destruct v, k; unfold bumped, Videos.bump; cbn -[Z.add]; f_equal; lia. Qed.

Lemma count_healthy k video_id o v vs tc ns no clk t ol :
  Bson.parse video_id = Some o ->
  Videos.first_where (Videos.has_id o) vs = Some v ->
  Videos.int64 (Videos.counter k v + 1) = true ->
  count k video_id (Videos.mkDatabase vs (mkWorld tc ns no clk t [] ol))
  = (Videos.Done (counted k),
     Videos.mkDatabase (Videos.rewrite_first (Videos.has_id o) (Videos.bump k) vs)
                       (mkWorld tc ns no clk t [] ol)).
Proof.
  intros Hp Hv Hfit.
  destruct k; unfold count, Videos.increment_view, Videos.toggle_like;
    run_videos; rewrite Hp; simpl; rewrite Hv, Hfit; reflexivity.
Qed.

Lemma count_repeatedly k video_id o :
  forall n v vs tc ns no clk t ol,
  Bson.parse video_id = Some o ->
  Videos.first_where (Videos.has_id o) vs = Some v ->
  (- 2 ^ 63 <= Videos.counter k v)%Z ->
  (Videos.counter k v + Z.of_nat n <= 2 ^ 63 - 1)%Z ->
  let r := Videos.repeatedly n (count k video_id)
             (Videos.mkDatabase vs (mkWorld tc ns no clk t [] ol)) in
  fst r = repeat (Videos.Done (counted k)) n
  /\ Videos.first_where (Videos.has_id o) (Videos.videos (snd r))
     = Some (bumped k (Z.of_nat n) v)
  /\ map Videos.v_id (Videos.videos (snd r)) = map Videos.v_id vs
  /\ (forall x, Videos.v_id x <> o -> (In x (Videos.videos (snd r)) <-> In x vs)).
Proof.
  induction n as [|n IH]; intros v vs tc ns no clk t ol Hp Hv Hlo Hhi r; subst r.
  - simpl. rewrite bumped_0. repeat split; auto.
  - cbn [Videos.repeatedly].
    assert (Videos.int64 (Videos.counter k v + 1) = true) as Hfit.
    { apply int64_bounds. big. lia. }
    rewrite (@count_healthy k video_id o v vs tc ns no clk t ol Hp Hv Hfit).
    assert (Videos.first_where (Videos.has_id o)
              (Videos.rewrite_first (Videos.has_id o) (Videos.bump k) vs)
            = Some (Videos.bump k v)) as Hv1.
    { apply first_where_rewrite_first; [|exact Hv]. intros x. now destruct k. }
    assert (Videos.counter k (Videos.bump k v) = Videos.counter k v + 1)%Z as Hc
      by (now destruct k).
    specialize (IH (Videos.bump k v) _ tc ns no clk t ol Hp Hv1).
    destruct (Videos.repeatedly n (count k video_id) _) as [rs d2] eqn:E.
    simpl in IH |- *.
    destruct IH as (R & F & I & O); [big; lia|big; lia|].
    split; [now rewrite R|]. split; [|split].
    + rewrite F, bumped_bump. do 2 f_equal. lia.
    + rewrite I. apply rewrite_first_map. intros x. now destruct k.
    + intros x Hx. rewrite (O x Hx). apply rewrite_first_others.
      * intros y. now destruct k.
      * unfold Videos.has_id. now apply N.eqb_neq.
Qed.

(** X16: n successive calls of [increment_view] on an existing video all
    succeed and add exactly n to its views (as long as the count fits 8
    bytes), leaving its likes, its other fields and the other videos alone. *)
Theorem increment_view_counts
        (video_id : string) (o : Bson.ObjectId) (v : Videos.Video) (n : nat)
        (d : Videos.Database) :
  Bson.parse video_id = Some o ->
  faults (Videos.world d) = [] ->
  Videos.first_where (Videos.has_id o) (Videos.videos d) = Some v ->
  (- 2 ^ 63 <= Videos.v_views v)%Z ->
  (Videos.v_views v + Z.of_nat n <= 2 ^ 63 - 1)%Z ->
  let r := Videos.repeatedly n (Videos.increment_view video_id) d in
  fst r = repeat (Videos.Done "View counted"%string) n
  /\ (exists v',
        Videos.first_where (Videos.has_id o) (Videos.videos (snd r)) = Some v'
        /\ Videos.v_views v' = (Videos.v_views v + Z.of_nat n)%Z
        /\ Videos.v_likes v' = Videos.v_likes v
        /\ Videos.v_title v' = Videos.v_title v
        /\ Videos.v_updated_at v' = Videos.v_updated_at v)
  /\ (forall x, Videos.v_id x <> o ->
        (In x (Videos.videos (snd r)) <-> In x (Videos.videos d))).
Proof.
  intros Hp Hf Hv Hlo Hhi. healthy_db d Hf.
  destruct (@count_repeatedly Videos.Views video_id o n v vs tc ns no clk t ol
              Hp Hv Hlo Hhi) as (R & F & _ & O).
  split; [exact R|]. split; [|exact O].
  eexists. split; [exact F|]. repeat split.
Qed.

(** X17: [toggle_like] never takes a like back: n successive calls on an
    existing video all succeed and add exactly n to its likes, leaving its
    views and the other videos alone. *)
Theorem toggle_like_only_adds
        (video_id : string) (o : Bson.ObjectId) (v : Videos.Video) (n : nat)
        (d : Videos.Database) :
  Bson.parse video_id = Some o ->
  faults (Videos.world d) = [] ->
  Videos.first_where (Videos.has_id o) (Videos.videos d) = Some v ->
  (- 2 ^ 63 <= Videos.v_likes v)%Z ->
  (Videos.v_likes v + Z.of_nat n <= 2 ^ 63 - 1)%Z ->
  let r := Videos.repeatedly n (Videos.toggle_like video_id) d in
  fst r = repeat (Videos.Done "Like toggled"%string) n
  /\ (exists v',
        Videos.first_where (Videos.has_id o) (Videos.videos (snd r)) = Some v'
        /\ Videos.v_likes v' = (Videos.v_likes v + Z.of_nat n)%Z
        /\ Videos.v_views v' = Videos.v_views v)
  /\ (forall x, Videos.v_id x <> o ->
        (In x (Videos.videos (snd r)) <-> In x (Videos.videos d))).
Proof.
  intros Hp Hf Hv Hlo Hhi. healthy_db d Hf.
  destruct (@count_repeatedly Videos.Likes video_id o n v vs tc ns no clk t ol
              Hp Hv Hlo Hhi) as (R & F & _ & O).
  split; [exact R|]. split; [|exact O].
  eexists. split; [exact F|]. repeat split.
Qed.

(** X18: [increment_view] and [toggle_like] on a well-formed identifier under
    which no video is stored answer 404 and change nothing. *)
Theorem counters_of_a_missing_video
        (video_id : string) (o : Bson.ObjectId) (d : Videos.Database) :
  Bson.parse video_id = Some o ->
  faults (Videos.world d) = [] ->
  Videos.first_where (Videos.has_id o) (Videos.videos d) = None ->
  fst (Videos.increment_view video_id d) = Videos.Fail Videos.VideoNotFound
  /\ fst (Videos.toggle_like video_id d) = Videos.Fail Videos.VideoNotFound
  /\ Videos.status 200 (fst (Videos.increment_view video_id d)) = 404
  /\ Videos.videos (snd (Videos.increment_view video_id d)) = Videos.videos d
  /\ Videos.videos (snd (Videos.toggle_like video_id d)) = Videos.videos d.
Proof.
  intros Hp Hf Hv. healthy_db d Hf.
  unfold Videos.increment_view, Videos.toggle_like. run_videos.
  rewrite Hp. simpl. rewrite Hv. simpl. repeat split.
Qed.

(** ** Updating, continued *)

Lemma has_id_apply_data o u x :
  Videos.has_id o (Videos.apply_data u x) = Videos.has_id o x.
Proof. reflexivity. Qed.

(** X15: an update of an existing video that sets at least one field writes
    exactly the fields set, sets [updated_at] to the milliseconds of the
    reading of the clock, keeps the counters and the creation time, returns the video as written,
    and leaves every other video alone. *)
Theorem update_video_applies
        (video_id : string) (o : Bson.ObjectId) (v : Videos.Video)
        (video_update : Videos.VideoUpdate) (d : Videos.Database) :
  Bson.parse video_id = Some o ->
  faults (Videos.world d) = [] ->
  Videos.first_where (Videos.has_id o) (Videos.videos d) = Some v ->
  Videos.nonempty (Videos.update_data video_update) = true ->
  Videos.fits (Videos.vu_duration video_update) = true ->
  let w := Videos.world d in
  let r := Videos.update_video video_id video_update d in
  let v' := {| Videos.v_id := Videos.v_id v;
               Videos.v_title :=
                 Videos.or_old (Videos.vu_title video_update) (Videos.v_title v);
               Videos.v_description :=
                 Videos.or_old (Videos.vu_description video_update)
                               (Videos.v_description v);
               Videos.v_video_url :=
                 Videos.or_old (Videos.vu_video_url video_update)
                               (Videos.v_video_url v);
               Videos.v_thumbnail_url :=
                 Videos.or_old (Videos.vu_thumbnail_url video_update)
                               (Videos.v_thumbnail_url v);
               Videos.v_duration :=
                 Videos.or_old (Videos.vu_duration video_update)
                               (Videos.v_duration v);
               Videos.v_category :=
                 Videos.or_old (Videos.vu_category video_update)
                               (Videos.v_category v);
               Videos.v_difficulty :=
                 Videos.or_old (Videos.vu_difficulty video_update)
                               (Videos.v_difficulty v);
               Videos.v_views := Videos.v_views v;
               Videos.v_likes := Videos.v_likes v;
               Videos.v_created_at := Videos.v_created_at v;
               Videos.v_updated_at := bson_datetime (utc w (tick w)) |} in
  fst r = Videos.Done (Videos.response v')
  /\ Videos.status 200 (fst r) = 200
  /\ Videos.first_where (Videos.has_id o) (Videos.videos (snd r)) = Some v'
  /\ (forall x, Videos.v_id x <> o ->
        (In x (Videos.videos (snd r)) <-> In x (Videos.videos d))).
Proof.
  intros Hp Hf Hv Hne Hfit w r v'. subst w r v'. healthy_db d Hf.
  destruct video_update as [a b c e g h i].
  unfold Videos.update_video. run_videos. rewrite Hp. simpl.
  rewrite Hne. simpl. rewrite Hfit. simpl.
  rewrite (@first_where_rewrite_first _ (Videos.has_id o) _ vs v
             (has_id_apply_data o _) Hv).
  simpl. repeat split.
  - rewrite (@first_where_rewrite_first _ (Videos.has_id o) _ vs v
               (has_id_apply_data o _) Hv). reflexivity.
  - apply rewrite_first_others; [auto|]. unfold Videos.has_id. now apply N.eqb_neq.
  - apply rewrite_first_others; [auto|]. unfold Videos.has_id. now apply N.eqb_neq.
Qed.

(** ** Deleting a video *)

(** X19: [delete_video] answers 404 for a missing video and changes nothing;
    for a stored video it answers 200 with a message, removes exactly that
    video, and afterwards both [get_video] and a second [delete_video] on the
    identifier answer 404. *)
Theorem delete_video_spec (video_id : string) (o : Bson.ObjectId)
        (d : Videos.Database) :
  Bson.parse video_id = Some o ->
  faults (Videos.world d) = [] ->
  NoDup (map Videos.v_id (Videos.videos d)) ->
  let r := Videos.delete_video video_id d in
  (Videos.first_where (Videos.has_id o) (Videos.videos d) = None ->
     fst r = Videos.Fail Videos.VideoNotFound
     /\ Videos.status 200 (fst r) = 404
     /\ Videos.videos (snd r) = Videos.videos d)
  /\
  (forall v, Videos.first_where (Videos.has_id o) (Videos.videos d) = Some v ->
     fst r = Videos.Done "Video deleted successfully"%string
     /\ Videos.status 200 (fst r) = 200
     /\ Videos.videos (snd r)
        = filter (fun x => negb (N.eqb (Videos.v_id x) o)) (Videos.videos d)
     /\ fst (Videos.get_video video_id (snd r)) = Videos.Fail Videos.VideoNotFound
     /\ fst (Videos.delete_video video_id (snd r)) = Videos.Fail Videos.VideoNotFound).
Proof.
  intros Hp Hf Hnd r. subst r. healthy_db d Hf.
  unfold Videos.delete_video, Videos.get_video. run_videos. rewrite Hp. simpl.
  split.
  - intros ->. simpl. repeat split.
  - intros v ->. simpl. rewrite (@drop_first_gone vs o Hnd). simpl.
    rewrite (@drop_first_by_id vs o Hnd). repeat split.
Qed.

(** ** Listing videos *)

Lemma selects_wanted category difficulty v :
  Videos.selects (Videos.mkFilter (Videos.truthy category) (Videos.truthy difficulty)) v
  = wanted category difficulty v.
Proof.
  unfold Videos.selects, wanted, Videos.key_holds.
  destruct category as [[|a s]|], difficulty as [[|b s']|]; reflexivity.
Qed.

(** Building the responses reads the clock twice per video and nothing else. *)
Lemma responses_run vs : forall l w,
  Videos.responses vs (Videos.mkDatabase l w)
  = (Videos.Done (map Videos.response vs),
     Videos.mkDatabase l (with_tick (tick w + 2 * List.length vs) w)).
Proof.
  induction vs as [|v vs IH]; intros l w.
  - simpl. unfold Videos.vret, with_tick. rewrite Nat.add_0_r. now destruct w.
  - cbn [Videos.responses]. unfold Videos.vbind at 1.
    unfold Videos.response_with_defaults, Videos.vbind, Videos.now, Videos.vret.
    cbn [Videos.world Videos.videos]. rewrite IH. simpl.
    unfold with_tick. simpl. do 3 f_equal. lia.
Qed.

Lemma get_all_videos_healthy category difficulty skip limit vs tc ns no clk t ol :
  (0 <= skip <= 2 ^ 63 - 1)%Z ->
  (0 <= limit <= 2 ^ 63 - 1)%Z ->
  let page := firstn (Z.to_nat limit)
                (skipn (Z.to_nat skip) (filter (wanted category difficulty) vs)) in
  Videos.get_all_videos category difficulty skip limit
    (Videos.mkDatabase vs (mkWorld tc ns no clk t [] ol))
  = (Videos.Done (map Videos.response page),
     Videos.mkDatabase vs (mkWorld tc ns no clk (t + 2 * List.length page) [] ol)).
Proof.
  intros Hs Hl page. subst page.
  unfold Videos.get_all_videos, Videos.find_page.
  destruct (Z.ltb_spec skip 0) as [X|_]; [lia|].
  destruct (Z.ltb_spec limit 0) as [X|_]; [lia|].
  unfold Videos.vbind, Videos.round_trip. cbn [Videos.world faults Videos.videos].
  assert (Videos.int64 skip = true) as -> by (apply int64_bounds; big; lia).
  assert (Videos.int64 limit = true) as -> by (apply int64_bounds; big; lia).
  cbn [andb]. rewrite responses_run. unfold with_tick. cbn [tick].
  rewrite (filter_ext _ _ (selects_wanted category difficulty)). reflexivity.
Qed.

Lemma in_firstn {A} (n : nat) (l : list A) x : In x (firstn n l) -> In x l.
Proof.
  revert l. induction n as [|n IH]; intros [|a l]; simpl; try tauto.
  intros [E|H]; auto.
Qed.

Lemma in_skipn {A} (n : nat) (l : list A) x : In x (skipn n l) -> In x l.
Proof.
  revert l. induction n as [|n IH]; intros [|a l]; simpl; try tauto.
  intros H. right. now apply IH.
Qed.

(** X20: for a non-negative [skip] and [limit], [get_all_videos] returns the
    videos that match the category and the difficulty asked for (an empty
    string asks for nothing), after the first [skip] of them and at most
    [limit] of them, in insertion order, and leaves the collection alone. *)
Theorem get_all_videos_window
        (category difficulty : option string) (skip limit : Z)
        (d : Videos.Database) :
  faults (Videos.world d) = [] ->
  (0 <= skip <= 2 ^ 63 - 1)%Z ->
  (0 <= limit <= 2 ^ 63 - 1)%Z ->
  let r := Videos.get_all_videos category difficulty skip limit d in
  let page := firstn (Z.to_nat limit)
                (skipn (Z.to_nat skip)
                   (filter (wanted category difficulty) (Videos.videos d))) in
  fst r = Videos.Done (map Videos.response page)
  /\ Videos.status 200 (fst r) = 200
  /\ (Z.of_nat (List.length page) <= limit)%Z
  /\ Forall (fun v => In v (Videos.videos d)
                      /\ wanted category difficulty v = true) page
  /\ Videos.videos (snd r) = Videos.videos d.
Proof.
  intros Hf Hs Hl r page. subst r. healthy_db d Hf.
  rewrite (@get_all_videos_healthy category difficulty skip limit vs tc ns no clk t ol Hs Hl).
  fold page. simpl. repeat split.
  - subst page. rewrite length_firstn. lia.
  - apply Forall_forall. intros v Hv. subst page.
    apply in_firstn, in_skipn in Hv. now apply filter_In in Hv.
Qed.

Lemma firstn_then_next {A} (a b : nat) (l : list A) :
  firstn a l ++ firstn b (skipn a l) = firstn (a + b) l.
Proof.
  revert l. induction a as [|a IH]; intros l; simpl; [reflexivity|].
  destruct l as [|x l]; simpl.
  - now rewrite firstn_nil.
  - now rewrite IH.
Qed.

Lemma skipn_add {A} (a b : nat) (l : list A) :
  skipn (a + b) l = skipn b (skipn a l).
Proof.
  revert l. induction a as [|a IH]; intros l; simpl; [reflexivity|].
  destruct l as [|x l]; simpl; [now rewrite skipn_nil|apply IH].
Qed.

(** X21: two consecutive pages, of sizes a and b, read one after the other,
    are together the page of size a + b that starts at the same place: paging
    skips no video and repeats none. *)
Theorem get_all_videos_pages_join
        (category difficulty : option string) (skip a b : Z)
        (d : Videos.Database) :
  faults (Videos.world d) = [] ->
  (0 <= skip)%Z -> (0 <= a)%Z -> (0 <= b)%Z ->
  (skip + a + b <= 2 ^ 63 - 1)%Z ->
  let first := Videos.get_all_videos category difficulty skip a d in
  let second := Videos.get_all_videos category difficulty (skip + a) b (snd first) in
  let both := Videos.get_all_videos category difficulty skip (a + b) d in
  exists p1 p2,
    fst first = Videos.Done p1
    /\ fst second = Videos.Done p2
    /\ fst both = Videos.Done (p1 ++ p2).
Proof.
  intros Hf Hs Ha Hb Hmax first second both. subst first second both.
  healthy_db d Hf.
  rewrite (@get_all_videos_healthy category difficulty skip a vs tc ns no clk t ol)
    by (big; lia).
  cbn [snd fst].
  rewrite (@get_all_videos_healthy category difficulty (skip + a) b vs tc ns no clk _ ol)
    by (big; lia).
  rewrite (@get_all_videos_healthy category difficulty skip (a + b) vs tc ns no clk t ol)
    by (big; lia).
  cbn [fst]. do 2 eexists. split; [reflexivity|]. split; [reflexivity|].
  rewrite <- map_app. do 2 f_equal.
  rewrite !Z2Nat.inj_add by lia. rewrite skipn_add. symmetry. apply firstn_then_next.
Qed.

(** ** Reads *)

(** X22: whatever the connection does and whatever the arguments,
    [get_video] and [get_all_videos] leave the video collection as it was. *)
Theorem video_reads_change_nothing
        (video_id : string) (category difficulty : option string) (skip limit : Z)
        (d : Videos.Database) :
  Videos.videos (snd (Videos.get_video video_id d)) = Videos.videos d
  /\ Videos.videos (snd (Videos.get_all_videos category difficulty skip limit d))
     = Videos.videos d.
Proof.
  destruct d as [vs [tc ns no clk t fs ol]]. split.
  - destruct (Videos.get_video video_id _) as [out d'] eqn:H.
    unfold Videos.get_video in H. run_videos.
    vbranch H; injection H as <- <-; reflexivity.
  - unfold Videos.get_all_videos, Videos.find_page, Videos.vbind, Videos.vraise.
    destruct (skip <? 0)%Z; [reflexivity|].
    destruct (limit <? 0)%Z; [reflexivity|].
    unfold Videos.round_trip. cbn [Videos.world Videos.videos faults].
    destruct fs as [|[] fs]; try reflexivity;
      (destruct (Videos.int64 skip && Videos.int64 limit); [|reflexivity]);
      cbn [with_faults]; rewrite responses_run; reflexivity.
Qed.

(** ** Witnesses of the properties above *)

Lemma create_video_spec_witness :
  fst (Videos.create_video palm_strike empty_database)
  = Videos.Done (Videos.response palm_strike_doc).
Proof.
  refine (proj1 (proj1 (@create_video_spec palm_strike empty_database eq_refl _) _)).
  - intros v [].
  - reflexivity.
Defined.

Lemma update_video_without_fields_witness :
  fst (Videos.update_video video_0 no_change studio)
  = Videos.Done (Videos.response palm_strike_doc).
Proof.
  destruct (@update_video_without_fields video_0 0%N studio eq_refl eq_refl)
    as (_ & _ & H & _).
  exact (proj1 (H palm_strike_doc eq_refl)).
Defined.

Lemma update_video_applies_witness :
  fst (Videos.update_video video_0 retitle studio)
  = Videos.Done (Videos.response retitled_doc).
Proof.
  exact (proj1 (@update_video_applies video_0 0%N palm_strike_doc retitle studio
                  eq_refl eq_refl eq_refl eq_refl eq_refl)).
Defined.

Lemma update_video_frame_witness :
  map Videos.v_views (Videos.videos (snd (Videos.update_video video_0 retitle studio)))
  = map Videos.v_views (Videos.videos studio).
Proof.
  exact (proj1 (proj2 (@update_video_frame video_0 retitle studio
                         (snd (Videos.update_video video_0 retitle studio))
                         (Videos.response retitled_doc) eq_refl))).
Defined.

Lemma increment_view_counts_witness :
  fst (Videos.repeatedly 3 (Videos.increment_view video_0) studio)
  = repeat (Videos.Done "View counted"%string) 3.
Proof.
  refine (proj1 (@increment_view_counts video_0 0%N palm_strike_doc 3 studio
                   eq_refl eq_refl eq_refl _ _)); simpl; lia.
Defined.

Lemma toggle_like_only_adds_witness :
  exists v',
    Videos.first_where (Videos.has_id 0%N)
      (Videos.videos (snd (Videos.repeatedly 2 (Videos.toggle_like video_0) studio)))
    = Some v'
    /\ Videos.v_likes v' = 2%Z.
Proof.
  destruct (@toggle_like_only_adds video_0 0%N palm_strike_doc 2 studio
              eq_refl eq_refl eq_refl) as (_ & (v' & H & Hl & _) & _).
  - simpl. lia.
  - simpl. lia.
  - exists v'. split; [exact H|exact Hl].
Defined.

Lemma counters_of_a_missing_video_witness :
  fst (Videos.increment_view video_0 empty_database) = Videos.Fail Videos.VideoNotFound.
Proof.
  exact (proj1 (@counters_of_a_missing_video video_0 0%N empty_database
                  eq_refl eq_refl eq_refl)).
Defined.

Lemma delete_video_spec_witness :
  fst (Videos.delete_video video_0 studio)
  = Videos.Done "Video deleted successfully"%string
  /\ fst (Videos.get_video video_0 (snd (Videos.delete_video video_0 studio)))
     = Videos.Fail Videos.VideoNotFound.
Proof.
  assert (NoDup (map Videos.v_id (Videos.videos studio))) as Hnd
    by (simpl; repeat constructor; simpl; tauto).
  destruct (@delete_video_spec video_0 0%N studio eq_refl eq_refl Hnd) as [_ H].
  destruct (H palm_strike_doc eq_refl) as (H1 & _ & _ & H2 & _).
  split; assumption.
Defined.

Lemma get_all_videos_window_witness :
  fst (Videos.get_all_videos (Some "self-defense"%string) (Some ""%string) 0 20 studio)
  = Videos.Done [Videos.response palm_strike_doc].
Proof.
  refine (proj1 (@get_all_videos_window (Some "self-defense"%string)
                   (Some ""%string) 0 20 studio eq_refl _ _)); simpl; lia.
Defined.

Lemma get_all_videos_pages_join_witness :
  exists p1 p2,
    fst (Videos.get_all_videos None None 0 1 studio) = Videos.Done p1
    /\ fst (Videos.get_all_videos None None 0 2 studio) = Videos.Done (p1 ++ p2).
Proof.
  destruct (@get_all_videos_pages_join None None 0 1 1 studio eq_refl)
    as (p1 & p2 & H1 & _ & H3); try (simpl; lia).
  exists p1, p2. split; [exact H1|exact H3].
Defined.
